(** * longpoll: long-polling publish/subscribe coordinator

    A shallow embedding of [longpoll.go] (package [longpoll]) and of the
    [AddFeed] registration entry point of its later revision.

    The Go package keeps all its state in one [LongPoll] struct of maps and
    lets every HTTP handler run in a goroutine of its own.  The handlers
    are embedded as pure functions over that struct.  A handler that blocks
    on an unbuffered channel is cut at its channel operations: each piece
    runs from one channel operation to the next, and a small interpreter
    ([exec]) schedules the pieces of all live goroutines.  One piece runs
    without preemption.  The source takes no lock, so two calls of
    [NewEvent] may overlap: a second interpreter ([exec_fine]) also cuts
    [NewEvent] after its read of the length of the Event Log and lets
    any step run between that read and the rest of the call.  Finer
    interleavings (data races inside the other pieces) are outside this
    model. *)

From Stdlib Require Import ZArith String Ascii.
From stdpp Require Import gmap strings list fin_maps sorting.

Open Scope string_scope.
Open Scope Z_scope.

(** ** Machine integers *)

(** Go's [int] (64 bits on the platforms the server targets) and [int32],
    as [Z] with the wrap-around of the signed representation. *)
Definition wrap_signed (bits : Z) (z : Z) : Z :=
  (z + 2 ^ (bits - 1)) `mod` 2 ^ bits - 2 ^ (bits - 1).

Definition int_of (z : Z) : Z := wrap_signed 64 z.
Definition int32_of (z : Z) : Z := wrap_signed 32 z.

(** ** Data model *)

(** [interface{}]: the payload is never inspected; [None] is the nil
    interface (the zero value), [Some s] any other value. *)
Abbreviation object := (option string).

Record event := mk_event {
  Data : object;
  Feed : string;
  Timestamp : Z
}.

(** The zero value of [event], which a Go map lookup yields for a missing
    key. *)
Definition zero_event : event :=
  {| Data := None; Feed := ""; Timestamp := 0 |}.

(** A [chan string] is identified by the order of its allocation. *)
Abbreviation chan := nat (only parsing).

Abbreviation clientExist := (gmap string bool) (only parsing).
Abbreviation feedToClients := (gmap string (gmap string bool)) (only parsing).
Abbreviation events := (gmap Z event) (only parsing).
Abbreviation clientToNewEvents := (gmap string (list Z)) (only parsing).
Abbreviation clientToConnection := (gmap string Z) (only parsing).
Abbreviation connectionChannel := (gmap Z nat) (only parsing).

Record LongPoll := mk_LongPoll {
  globalClients : clientExist;
  globalEvents : events;
  globalClientToNewEvents : clientToNewEvents;
  globalFeedToClients : feedToClients;
  globalClientToConnection : clientToConnection;
  globalConnectionChannel : connectionChannel;
  globalLastConnection : Z
}.

Definition set_globalClients (v : clientExist) (lp : LongPoll) : LongPoll :=
  mk_LongPoll v (globalEvents lp) (globalClientToNewEvents lp)
    (globalFeedToClients lp) (globalClientToConnection lp)
    (globalConnectionChannel lp) (globalLastConnection lp).

Definition set_globalEvents (v : events) (lp : LongPoll) : LongPoll :=
  mk_LongPoll (globalClients lp) v (globalClientToNewEvents lp)
    (globalFeedToClients lp) (globalClientToConnection lp)
    (globalConnectionChannel lp) (globalLastConnection lp).

Definition set_globalClientToNewEvents (v : clientToNewEvents)
    (lp : LongPoll) : LongPoll :=
  mk_LongPoll (globalClients lp) (globalEvents lp) v
    (globalFeedToClients lp) (globalClientToConnection lp)
    (globalConnectionChannel lp) (globalLastConnection lp).

Definition set_globalFeedToClients (v : feedToClients)
    (lp : LongPoll) : LongPoll :=
  mk_LongPoll (globalClients lp) (globalEvents lp)
    (globalClientToNewEvents lp) v (globalClientToConnection lp)
    (globalConnectionChannel lp) (globalLastConnection lp).

Definition set_globalClientToConnection (v : clientToConnection)
    (lp : LongPoll) : LongPoll :=
  mk_LongPoll (globalClients lp) (globalEvents lp)
    (globalClientToNewEvents lp) (globalFeedToClients lp) v
    (globalConnectionChannel lp) (globalLastConnection lp).

Definition set_globalConnectionChannel (v : connectionChannel)
    (lp : LongPoll) : LongPoll :=
  mk_LongPoll (globalClients lp) (globalEvents lp)
    (globalClientToNewEvents lp) (globalFeedToClients lp)
    (globalClientToConnection lp) v (globalLastConnection lp).

Definition set_globalLastConnection (v : Z) (lp : LongPoll) : LongPoll :=
  mk_LongPoll (globalClients lp) (globalEvents lp)
    (globalClientToNewEvents lp) (globalFeedToClients lp)
    (globalClientToConnection lp) (globalConnectionChannel lp) v.

(** What a handler hands to [sendError] or [sendResponse]; the JSON
    encoding of the reply is not modelled. *)
Inductive response :=
| ErrorResponse (Code : Z) (Message : string)
| SubscriptionResponse (Token : string) (Feeds : list string)
| EventResponse (Events : list event)
| HandlerPanic.

(** The three result statuses of a listen call, read off the reply. *)
Inductive status := Delivered | Superseded | TimedOut.

Definition status_of (resp : response) : option status :=
  match resp with
  | EventResponse _ => Some Delivered
  | ErrorResponse 204 _ => Some Superseded
  | ErrorResponse 408 _ => Some TimedOut
  | _ => None
  end.

(** ** Constructor and feed registration *)

Definition empty_LongPoll : LongPoll :=
  mk_LongPoll ∅ ∅ ∅ ∅ ∅ ∅ 0.

(** [for _, feed := range feeds { m[feed] = make(clientExist) }] *)
Fixpoint register_feeds (feeds : list string) (m : feedToClients)
    : feedToClients :=
  match feeds with
  | [] => m
  | feed :: rest => register_feeds rest (<[feed := ∅]> m)
  end.

(** [New(opt)]: a nil [opt.Feeds] and an empty one register nothing. *)
Definition New (Feeds : option (list string)) : LongPoll :=
  match Feeds with
  | Some feeds =>
      set_globalFeedToClients
        (register_feeds feeds (globalFeedToClients empty_LongPoll))
        empty_LongPoll
  | None => empty_LongPoll
  end.

(** [AddFeed] of the later revision: the empty name is ignored, any other
    name is bound to a freshly made subscriber map. *)
Definition AddFeed (feed : string) (lp : LongPoll) : LongPoll :=
  if (0 <? Z.of_nat (String.length feed))%Z
  then set_globalFeedToClients (<[feed := ∅]> (globalFeedToClients lp)) lp
  else lp.

Fixpoint AddFeeds_loop (feeds : list string) (lp : LongPoll) : LongPoll :=
  match feeds with
  | [] => lp
  | feed :: rest => AddFeeds_loop rest (AddFeed feed lp)
  end.

Definition AddFeeds (feeds : option (list string)) (lp : LongPoll)
    : LongPoll :=
  match feeds with
  | Some fs => AddFeeds_loop fs lp
  | None => lp
  end.

(** ** Token generation *)

(** [math/rand]'s source: [Intn r n] draws from [0, n) when [n] is
    positive (and panics otherwise, which [GetNewToken] never asks for). *)
Class RandSource (R : Type) := {
  Intn : R → Z → Z * R;
  Intn_range : ∀ r n, 0 < n → 0 ≤ (Intn r n).1 < n
}.

Definition charset : string :=
  "abcdefghijklmnopqrstuvwxyzABCDEFGHIJKLMNOPQRSTUVWXYZ0123456789".

(** [charset[k]], with [None] for the index-out-of-range panic. *)
Definition charset_at (k : Z) : option ascii :=
  if (k <? 0)%Z then None else String.get (Z.to_nat k) charset.

Section token.
Context {R : Type} `{!RandSource R}.

(** The loop [for i := range b { b[i] = charset[Intn(len(charset))] }]. *)
Fixpoint token_bytes (n : nat) (r : R) : option (list ascii * R) :=
  match n with
  | O => Some ([], r)
  | S n' =>
      let '(k, r1) := Intn r (Z.of_nat (String.length charset)) in
      match charset_at k with
      | None => None
      | Some c =>
          match token_bytes n' r1 with
          | None => None
          | Some (cs, r2) => Some (c :: cs, r2)
          end
      end
  end.

(** [GetNewToken(length)]; [None] stands for a run-time panic
    ([make] with a negative length, or an index out of range). *)
Definition GetNewToken (length : Z) (r : R) : option (string * R) :=
  if (length <? 0)%Z then None
  else
    match token_bytes (Z.to_nat length) r with
    | None => None
    | Some (b, r') => Some (string_of_list_ascii b, r')
    end.
End token.

(** ** Subscription *)

(** The validation loop: the first requested feed that is not a key of the
    feed directory. *)
Fixpoint first_unavailable (m : feedToClients) (feeds : list string)
    : option string :=
  match feeds with
  | [] => None
  | feed :: rest =>
      match m !! feed with
      | None => Some feed
      | Some _ => first_unavailable m rest
      end
  end.

(** The subscription loop [m[feed][token] = true].  A missing feed is a
    nil inner map, and assigning into it panics: the boolean tells whether
    the loop ran to its end, the map is what it wrote until then. *)
Fixpoint subscribe_all (token : string) (feeds : list string)
    (m : feedToClients) : feedToClients * bool :=
  match feeds with
  | [] => (m, true)
  | feed :: rest =>
      match m !! feed with
      | None => (m, false)
      | Some clients =>
          subscribe_all token rest (<[feed := <[token := true]> clients]> m)
      end
  end.

(** The body of [SubscribeHandler] once the token is minted. *)
Definition subscribe_with (token : string) (feeds : list string)
    (lp : LongPoll) : response * LongPoll :=
  let lp1 := set_globalClients (<[token := false]> (globalClients lp)) lp in
  match first_unavailable (globalFeedToClients lp1) feeds with
  | Some feed =>
      (ErrorResponse 500 ("Feed " ++ feed ++ " is not available"), lp1)
  | None =>
      let '(m, completed) :=
        subscribe_all token feeds (globalFeedToClients lp1) in
      let lp2 := set_globalFeedToClients m lp1 in
      if completed then (SubscriptionResponse token feeds, lp2)
      else (HandlerPanic, lp2)
  end.

Section subscribe.
Context {R : Type} `{!RandSource R}.

(** [SubscribeHandler]; [feeds] is the value of the query parameter
    [feed], [None] when the request has none. *)
Definition SubscribeHandler (feeds : option (list string)) (r : R)
    (lp : LongPoll) : response * R * LongPoll :=
  match feeds with
  | None => (ErrorResponse 400 "Missing feed", r, lp)
  | Some feeds =>
      match GetNewToken 32 r with
      | None => (HandlerPanic, r, lp)
      | Some (token, r') =>
          let '(resp, lp') := subscribe_with token feeds lp in
          (resp, r', lp')
      end
  end.
End subscribe.

(** ** Listening *)

(** [PendingEvents(token)]: a missing key reads as the nil slice. *)
Definition pending_events (lp : LongPoll) (token : string) : list Z :=
  default [] (globalClientToNewEvents lp !! token).

(** Where a [ListenHandler] call stands once it has run up to its next
    channel operation. *)
Inductive listening :=
| Replied (resp : response)
| SendingAbort (token : string) (currentConnection : Z)
    (target : option nat)
| Receiving (token : string) (currentConnection : Z)
    (comunicationChannel : nat).

(** "Fetch the events" to the end of the handler. *)
Definition ListenHandler_fetch (token : string) (lp : LongPoll)
    : response * LongPoll :=
  let Events :=
    (λ eventID, default zero_event (globalEvents lp !! eventID))
      <$> pending_events lp token in
  let lp1 :=
    set_globalClientToNewEvents
      (<[token := []]> (globalClientToNewEvents lp)) lp in
  let lp2 :=
    set_globalClientToConnection
      (delete token (globalClientToConnection lp1)) lp1 in
  (EventResponse Events, lp2).

(** From "Save the active connection for this client" to the receive on
    the fresh channel, or to the end of the handler when events are
    already buffered. *)
Definition ListenHandler_register (token : string) (currentConnection : Z)
    (comunicationChannel : nat) (lp : LongPoll) : listening * LongPoll :=
  let lp1 :=
    set_globalClientToConnection
      (<[token := currentConnection]> (globalClientToConnection lp)) lp in
  let lp2 :=
    set_globalConnectionChannel
      (<[currentConnection := comunicationChannel]>
         (globalConnectionChannel lp1)) lp1 in
  if (Z.of_nat (length (pending_events lp2 token)) =? 0)%Z then
    (Receiving token currentConnection comunicationChannel,
     set_globalClients (<[token := true]> (globalClients lp2)) lp2)
  else
    let '(resp, lp3) := ListenHandler_fetch token lp2 in
    (Replied resp, lp3).

(** From the entry of the handler to its first channel operation.
    [tokens] is the value of the query parameter [token]; [fresh] is the
    channel that [make(chan string)] returns if the call gets there. *)
Definition ListenHandler_start (tokens : option (list string))
    (fresh : nat) (lp : LongPoll) : listening * LongPoll :=
  match tokens with
  | None => (Replied (ErrorResponse 400 "Missing token"), lp)
  | Some [] => (Replied HandlerPanic, lp)
  | Some (token :: _) =>
      match globalClients lp !! token with
      | None => (Replied (ErrorResponse 401 "Unauthorized"), lp)
      | Some _ =>
          let lp1 :=
            set_globalLastConnection
              (int_of (globalLastConnection lp + 1)) lp in
          let currentConnection := globalLastConnection lp1 in
          match globalClientToConnection lp1 !! token with
          | Some previousConnectionIndex =>
              (SendingAbort token currentConnection
                 (globalConnectionChannel lp1 !! previousConnectionIndex),
               lp1)
          | None =>
              ListenHandler_register token currentConnection fresh lp1
          end
      end
  end.

(** After the receive: what the handler does with the signal it got. *)
Definition ListenHandler_wake (token : string) (operation : string)
    (lp : LongPoll) : response * LongPoll :=
  if String.eqb operation "ABORT" then
    (ErrorResponse 204 "Connection aborted", lp)
  else if String.eqb operation "TIMEOUT" then
    (ErrorResponse 408 "Request timeout",
     set_globalClientToConnection
       (delete token (globalClientToConnection lp)) lp)
  else ListenHandler_fetch token lp.

(** ** Publishing *)

(** [m[client] = append(m[client], newIndex)] *)
Definition append_event (newIndex : Z) (m : clientToNewEvents)
    (client : string) : clientToNewEvents :=
  <[client := (default [] (m !! client) ++ [newIndex])%list]> m.

(** The keys of a Go map in the order a [range] loop visits them. *)
Definition range_keys {V} (m : gmap string V) : list string :=
  (map_to_list m).*1.

(** [NewEvent(feed, object)], with the clock reading [now].  Returns the
    error (always nil), the new state and the clients for which a
    [notifyEvent] goroutine is started. *)
Definition NewEvent (feed : string) (obj : object) (now : Z)
    (lp : LongPoll) : option string * LongPoll * list string :=
  let newIndex := Z.of_nat (size (globalEvents lp)) in
  let lp1 :=
    set_globalEvents
      (<[newIndex :=
           {| Data := obj; Feed := feed; Timestamp := int32_of now |}]>
         (globalEvents lp)) lp in
  let subscribers := default ∅ (globalFeedToClients lp1 !! feed) in
  let lp2 :=
    set_globalClientToNewEvents
      (foldl (append_event newIndex) (globalClientToNewEvents lp1)
         (range_keys subscribers)) lp1 in
  let waitingClients : gmap string bool :=
    list_to_map ((λ client, (client, true)) <$> range_keys subscribers) in
  (None, lp2, range_keys waitingClients).

(** Where a [notifyEvent] goroutine stands at its send. *)
Inductive notifying :=
| NotifyReturned
| SendingDone (client : string) (target : option nat).

Definition notifyEvent_start (client : string) (lp : LongPoll)
    : notifying :=
  if default false (globalClients lp !! client) then
    match globalClientToConnection lp !! client with
    | None => NotifyReturned
    | Some connection =>
        SendingDone client (globalConnectionChannel lp !! connection)
    end
  else NotifyReturned.

(** After the send of ["DONE"] went through. *)
Definition notifyEvent_finish (client : string) (lp : LongPoll)
    : LongPoll :=
  set_globalClients (<[client := false]> (globalClients lp)) lp.

(** ** Goroutines and their scheduling *)

(** A live goroutine, by the point of the source it stands at.  The
    [At] states are blocked on an unbuffered channel; the others are ready
    to run their next piece. *)
Inductive goroutine :=
| ListenAtSend (token : string) (currentConnection : Z)
    (target : option nat)
| ListenAfterSend (token : string) (currentConnection : Z)
| ListenAtRecv (token : string) (currentConnection : Z)
    (comunicationChannel : nat)
| ListenAfterRecv (token : string) (currentConnection : Z)
    (operation : string)
| NotifySpawned (client : string)
| NotifyAtSend (client : string) (target : option nat)
| NotifyAfterSend (client : string)
| TimeoutAtSend (comunicationChanel : nat)
| Exited.

(** A send a blocked goroutine offers: the channel (a nil channel offers
    nothing, its sender blocks for ever), the message, and the state of the
    sender once the message is taken. *)
Definition offered_send (g : goroutine)
    : option (nat * string * goroutine) :=
  match g with
  | ListenAtSend token cur (Some c) =>
      Some (c, "ABORT", ListenAfterSend token cur)
  | NotifyAtSend client (Some c) => Some (c, "DONE", NotifyAfterSend client)
  | TimeoutAtSend c => Some (c, "TIMEOUT", Exited)
  | _ => None
  end.

Section system.
Context {R : Type} `{!RandSource R}.

Record system := mk_system {
  lp : LongPoll;
  rng : R;
  pool : list goroutine;
  chans : nat;
  replies : list response
}.

Definition init (Feeds : option (list string)) (seed : R) : system :=
  mk_system (New Feeds) seed [] 0%nat [].

(** What the scheduler may do next: take a call from outside, let a ready
    goroutine run its next piece, or let a blocked sender and a blocked
    receiver of one channel meet.  The sleep of [notifyTimeout] is not
    measured: its send may be taken at any time. *)
Inductive action :=
| Subscribe (feeds : option (list string))
| Listen (tokens : option (list string))
| Publish (feed : string) (obj : object) (now : Z)
| Run (i : nat)
| Sync (sender receiver : nat).

(** The state after a listen call reached [l]; [slot] is the place of the
    call in the pool ([None] for a call that just came in). *)
Definition settle_listen (slot : option nat) (l : listening)
    (lp' : LongPoll) (s : system) : system :=
  let place (g : goroutine) (extra : list goroutine) :=
    match slot with
    | Some i => (<[i := g]> (pool s) ++ extra)%list
    | None => (pool s ++ g :: extra)%list
    end in
  match l with
  | Replied resp =>
      mk_system lp' (rng s) (place Exited []) (S (chans s))
        (replies s ++ [resp])%list
  | SendingAbort token cur target =>
      mk_system lp' (rng s) (place (ListenAtSend token cur target) [])
        (S (chans s)) (replies s)
  | Receiving token cur c =>
      mk_system lp' (rng s)
        (place (ListenAtRecv token cur c) [TimeoutAtSend c])
        (S (chans s)) (replies s)
  end.

Definition exec (a : action) (s : system) : option system :=
  match a with
  | Subscribe feeds =>
      let '(resp, r', lp') := SubscribeHandler feeds (rng s) (lp s) in
      Some (mk_system lp' r' (pool s) (chans s) (replies s ++ [resp])%list)
  | Listen tokens =>
      let '(l, lp') := ListenHandler_start tokens (chans s) (lp s) in
      Some (settle_listen None l lp' s)
  | Publish feed obj now =>
      let '(_, lp', clients) := NewEvent feed obj now (lp s) in
      Some (mk_system lp' (rng s)
              (pool s ++ (NotifySpawned <$> clients))%list
              (chans s) (replies s))
  | Run i =>
      match pool s !! i with
      | Some (ListenAfterSend token cur) =>
          let '(l, lp') :=
            ListenHandler_register token cur (chans s) (lp s) in
          Some (settle_listen (Some i) l lp' s)
      | Some (ListenAfterRecv token cur operation) =>
          let '(resp, lp') := ListenHandler_wake token operation (lp s) in
          Some (mk_system lp' (rng s) (<[i := Exited]> (pool s)) (chans s)
                  (replies s ++ [resp])%list)
      | Some (NotifySpawned client) =>
          let g :=
            match notifyEvent_start client (lp s) with
            | NotifyReturned => Exited
            | SendingDone c target => NotifyAtSend c target
            end in
          Some (mk_system (lp s) (rng s) (<[i := g]> (pool s)) (chans s)
                  (replies s))
      | Some (NotifyAfterSend client) =>
          Some (mk_system (notifyEvent_finish client (lp s)) (rng s)
                  (<[i := Exited]> (pool s)) (chans s) (replies s))
      | _ => None
      end
  | Sync i j =>
      match pool s !! i ≫= offered_send, pool s !! j with
      | Some (c, operation, after), Some (ListenAtRecv token cur c') =>
          if decide (c = c') then
            Some (mk_system (lp s) (rng s)
                    (<[j := ListenAfterRecv token cur operation]>
                       (<[i := after]> (pool s)))
                    (chans s) (replies s))
          else None
      | _, _ => None
      end
  end.

Fixpoint run (acts : list action) (s : system) : option system :=
  match acts with
  | [] => Some s
  | a :: rest =>
      match exec a s with
      | Some s' => run rest s'
      | None => None
      end
  end.

(** The states reached when every piece, and every [NewEvent] call as a
    whole, runs undivided.  [reachable_overlapping] below lifts the
    restriction on [NewEvent]. *)
Definition reachable (s : system) : Prop :=
  ∃ Feeds seed acts, run acts (init Feeds seed) = Some s.

(** A listen call for [token] is blocked on its channel, awaiting a
    signal. *)
Definition listen_blocked (s : system) (token : string) : Prop :=
  ∃ cur c, ListenAtRecv token cur c ∈ pool s.

End system.

Arguments system R : clear implicits.

(** A source of draws for examples: a counter, reduced modulo the bound. *)
#[export] Instance counter_rand : RandSource nat :=
  {| Intn r n := (Z.of_nat r `mod` n, S r);
     Intn_range r n Hn := Z.mod_pos_bound (Z.of_nat r) n Hn |}.

(** ** Publishes that overlap *)

(** [NewEvent] from its second statement on: what a call does once it
    has read [newIndex := len(lp.globalEvents)]. *)
Definition NewEvent_after_read (newIndex : Z) (feed : string) (obj : object)
    (now : Z) (lp : LongPoll) : option string * LongPoll * list string :=
  let lp1 :=
    set_globalEvents
      (<[newIndex :=
           {| Data := obj; Feed := feed; Timestamp := int32_of now |}]>
         (globalEvents lp)) lp in
  let subscribers := default ∅ (globalFeedToClients lp1 !! feed) in
  let lp2 :=
    set_globalClientToNewEvents
      (foldl (append_event newIndex) (globalClientToNewEvents lp1)
         (range_keys subscribers)) lp1 in
  let waitingClients : gmap string bool :=
    list_to_map ((λ client, (client, true)) <$> range_keys subscribers) in
  (None, lp2, range_keys waitingClients).

(** A [NewEvent] call that has read its index and not yet written. *)
Record publishing := mk_publishing {
  pub_feed : string;
  pub_object : object;
  pub_now : Z;
  pub_newIndex : Z
}.

Section overlapping.
Context {R : Type} `{!RandSource R}.

(** The goroutines and the state as before, and the [NewEvent] calls
    that stand between their read and their write. *)
Record racing := mk_racing {
  settled : system R;
  in_flight : list publishing
}.

(** A step as before (a whole [NewEvent] call among them), the read of
    the index by a new [NewEvent] call, or the rest of the call of the
    [i]-th one in flight. *)
Inductive fine_action :=
| Step (a : action)
| PublishRead (feed : string) (obj : object) (now : Z)
| PublishWrite (i : nat).

Definition exec_fine (a : fine_action) (r : racing) : option racing :=
  match a with
  | Step a =>
      match exec a (settled r) with
      | Some s' => Some (mk_racing s' (in_flight r))
      | None => None
      end
  | PublishRead feed obj now =>
      let newIndex := Z.of_nat (size (globalEvents (lp (settled r)))) in
      Some (mk_racing (settled r)
              (in_flight r ++ [mk_publishing feed obj now newIndex])%list)
  | PublishWrite i =>
      match in_flight r !! i with
      | Some call =>
          let s := settled r in
          let '(_, lp', clients) :=
            NewEvent_after_read (pub_newIndex call) (pub_feed call)
              (pub_object call) (pub_now call) (lp s) in
          Some (mk_racing
                  (mk_system lp' (rng s)
                     (pool s ++ (NotifySpawned <$> clients))%list
                     (chans s) (replies s))
                  (delete i (in_flight r)))
      | None => None
      end
  end.

Fixpoint run_fine (acts : list fine_action) (r : racing) : option racing :=
  match acts with
  | [] => Some r
  | a :: rest =>
      match exec_fine a r with
      | Some r' => run_fine rest r'
      | None => None
      end
  end.

(** The states reached when [NewEvent] calls may overlap. *)
Definition reachable_overlapping (s : system R) : Prop :=
  ∃ Feeds seed acts r,
    run_fine acts (mk_racing (init Feeds seed) []) = Some r
    ∧ settled r = s.

End overlapping.

Arguments racing R : clear implicits.

(** ** The later revision: request parameters and subscription ids *)

(** In the later revision of the package the handlers read their
    parameters through [getFeeds] and [getSubscriptionID], which look in
    the request context first and in the URL second, and a subscriber may
    hand in the subscription id it wants to use. *)
Module Later.

Record ContextStruct := mk_ContextStruct {
  SubscriptionID : string;
  Feeds : list string;
  SessionID : string
}.

(** What the functions read of a [*http.Request]: the [ContextStruct]
    stored in its context ([None] when the context holds none, that is
    when the type assertion fails) and the query of its URL. *)
Record request := mk_request {
  context_value : option ContextStruct;
  url_query : gmap string (list string)
}.

(** [getFeeds]; a nil slice and an empty one are both the empty list. *)
Definition getFeeds (r : request) : list string :=
  let from_url := default [] (url_query r !! "feed") in
  match context_value r with
  | Some contextStruct =>
      if (0 <? Z.of_nat (length (Feeds contextStruct)))%Z
      then Feeds contextStruct
      else from_url
  | None => from_url
  end.

Definition getSubscriptionID (r : request) : string :=
  let from_url :=
    match url_query r !! "subscriptionID" with
    | Some (subscriptionID :: _) => subscriptionID
    | _ => ""
    end in
  match context_value r with
  | Some contextStruct =>
      if (0 <? Z.of_nat (String.length (SubscriptionID contextStruct)))%Z
      then SubscriptionID contextStruct
      else from_url
  | None => from_url
  end.

Section handlers.
Context {R : Type}.

(** [resthelper.GetNewToken(32)], a function of another package. *)
Variable mint : R → string * R.

(** [SubscribeHandler] of the later revision.  From the write to the
    Token Registry on, its body is the one of the first revision. *)
Definition SubscribeHandler (r : request) (rnd : R) (lp : LongPoll)
    : response * R * LongPoll :=
  let feeds := getFeeds r in
  if (Z.of_nat (length feeds) =? 0)%Z then
    (ErrorResponse 400 "Missing feed", rnd, lp)
  else
    let '(subscriptionID, rnd') :=
      if String.eqb (getSubscriptionID r) "" then mint rnd
      else (getSubscriptionID r, rnd) in
    let '(resp, lp') := subscribe_with subscriptionID feeds lp in
    (resp, rnd', lp').

End handlers.

End Later.

(** ** Predicates of the specification *)

(** The channel a goroutine is blocked receiving on, and the channel a
    timeout goroutine is to send on. *)
Definition receiving_on (g : goroutine) : option nat :=
  match g with
  | ListenAtRecv _ _ comunicationChannel => Some comunicationChannel
  | _ => None
  end.

Definition timeout_for (g : goroutine) : option nat :=
  match g with
  | TimeoutAtSend comunicationChanel => Some comunicationChanel
  | _ => None
  end.

(** A goroutine that neither waits on a channel nor is a timeout. *)
Definition quiet (g : goroutine) : Prop :=
  receiving_on g = None ∧ timeout_for g = None.

(** The pool of goroutines is well formed: the channels that listen calls
    wait on and that timeouts are to send on have been allocated, no two
    listen calls wait on one channel, and every waiting listen call still
    has its timeout goroutine. *)
Record pool_ok {R : Type} (s : system R) : Prop := mk_pool_ok {
  recv_allocated :
    ∀ j c, pool s !! j ≫= receiving_on = Some c → (c < chans s)%nat;
  timeout_allocated :
    ∀ i c, pool s !! i ≫= timeout_for = Some c → (c < chans s)%nat;
  recv_unique :
    ∀ j1 j2 c,
      pool s !! j1 ≫= receiving_on = Some c →
      pool s !! j2 ≫= receiving_on = Some c → j1 = j2;
  recv_has_timeout :
    ∀ j c, pool s !! j ≫= receiving_on = Some c →
           ∃ i, pool s !! i = Some (TimeoutAtSend c)
}.

(** What one step of the scheduler may do to the pool [p] and to the
    channel counter [n]: a listen call that starts waiting waits on the
    channel [n], just allocated, at one place of the pool, and comes with
    its timeout; a timeout leaves the pool only when a listen call
    waiting on its channel takes its signal. *)
Definition pool_transfer (n : nat) (p : list goroutine) (n' : nat)
    (p' : list goroutine) : Prop :=
  (n ≤ n')%nat
  ∧ (∀ k c, p' !! k ≫= receiving_on = Some c →
            p !! k ≫= receiving_on = Some c ∨ (c = n ∧ (n < n')%nat))
  ∧ (∀ k c, p' !! k ≫= timeout_for = Some c →
            p !! k ≫= timeout_for = Some c ∨ (c = n ∧ (n < n')%nat))
  ∧ (∀ k1 k2 c,
       p' !! k1 ≫= receiving_on = Some c →
       p' !! k2 ≫= receiving_on = Some c →
       p !! k1 ≫= receiving_on ≠ Some c →
       p !! k2 ≫= receiving_on ≠ Some c → k1 = k2)
  ∧ (∀ k c, p' !! k ≫= receiving_on = Some c →
            p !! k ≫= receiving_on ≠ Some c →
            ∃ i, p' !! i = Some (TimeoutAtSend c))
  ∧ (∀ i c, p !! i = Some (TimeoutAtSend c) →
            p' !! i = Some (TimeoutAtSend c)
            ∨ ∃ j, p !! j ≫= receiving_on = Some c
                   ∧ p' !! j ≫= receiving_on = None).



(** The alphanumeric characters [a-z], [A-Z], [0-9], by character code. *)
Definition is_alnum (c : ascii) : bool :=
  let n := nat_of_ascii c in
  ((97 <=? n) && (n <=? 122) || (65 <=? n) && (n <=? 90)
   || (48 <=? n) && (n <=? 57))%nat.

Definition from_charset (c : ascii) : Prop :=
  is_alnum c = true ∧ c ∈ list_ascii_of_string charset.

Definition alphanumeric (s : string) : Prop :=
  Forall from_charset (list_ascii_of_string s).

(** The Event Log holds exactly the ids [0 .. len-1]. *)
Definition log_dense (lp : LongPoll) : Prop :=
  ∀ k, is_Some (globalEvents lp !! k)
       ↔ 0 ≤ k < Z.of_nat (size (globalEvents lp)).

(** [token] is in the subscriber set of [feed]. *)
Definition subscribed (lp : LongPoll) (token feed : string) : Prop :=
  ∃ clients,
    globalFeedToClients lp !! feed = Some clients
    ∧ is_Some (clients !! token).

(** Every pending id is a key of the Event Log. *)
Definition pending_logged (lp : LongPoll) : Prop :=
  ∀ token id,
    id ∈ pending_events lp token → is_Some (globalEvents lp !! id).

(** Every pending id of a token names an event of a feed the token is
    subscribed to. *)
Definition pending_subscribed (lp : LongPoll) : Prop :=
  ∀ token id,
    id ∈ pending_events lp token →
    ∃ e, globalEvents lp !! id = Some e ∧ subscribed lp token (Feed e).

(** Pending ids are in increasing order, which is publish order. *)
Definition pending_increasing (lp : LongPoll) : Prop :=
  ∀ token, StronglySorted Z.lt (pending_events lp token).

(** Every subscriber of a feed is a key of the Token Registry. *)
Definition subscribers_registered (lp : LongPoll) : Prop :=
  ∀ token feed, subscribed lp token feed →
                is_Some (globalClients lp !! token).

Record consistent (lp : LongPoll) : Prop := mk_consistent {
  cons_dense : log_dense lp;
  cons_subscribed : pending_subscribed lp;
  cons_increasing : pending_increasing lp;
  cons_registered : subscribers_registered lp
}.

(** [Events] are the log entries stored under [ids], one for one. *)
Definition fetched (lp : LongPoll) (ids : list Z) (Events : list event)
    : Prop :=
  Forall2 (λ id e, globalEvents lp !! id = Some e) ids Events.

(** A listen reply for [token] holds only events of feeds the token is
    subscribed to, in publish order. *)
Definition delivery_ok (lp : LongPoll) (token : string)
    (Events : list event) : Prop :=
  Forall (λ e, subscribed lp token (Feed e)) Events
  ∧ ∃ ids, StronglySorted Z.lt ids ∧ fetched lp ids Events.

(** The log entries that the fetch loop reads for [ids]: a missing key
    reads as the zero event. *)
Definition log_entries (lp : LongPoll) (ids : list Z) : list event :=
  (λ eventID, default zero_event (globalEvents lp !! eventID)) <$> ids.

(** The check the specification asks of a listen call woken by ["ABORT"]:
    it answers [Superseded] only having found that the active-connection
    record of its token is no longer its own connection id. *)
Definition wake_verifies_record (lp : LongPoll) (token : string)
    (currentConnection : Z) : Prop :=
  status_of (ListenHandler_wake token "ABORT" lp).1 = Some Superseded →
  globalClientToConnection lp !! token ≠ Some currentConnection.

(** ** Scenarios *)

(** The first token that [GetNewToken(32)] mints from [counter_rand]. *)
Definition T0 : string := "abcdefghijklmnopqrstuvwxyzABCDEF".

Definition boot : system nat := init (Some ["f1"]) 0%nat.

Definition after (acts : list action) : system nat :=
  default boot (run acts boot).

(** One subscriber whose listen call is blocked when an event is
    published: the event is buffered while the connection of the blocked
    call is still on record. *)
Definition buffered_while_listening : list action :=
  [Subscribe (Some ["f1"]); Listen (Some [T0]);
   Publish "f1" (Some "P1") 100].

(** A second listen call for the same token, up to the moment the first
    one has taken its ["ABORT"]. *)
Definition abort_taken : list action :=
  [Subscribe (Some ["f1"]); Listen (Some [T0]); Listen (Some [T0]);
   Sync 2 0].


(** The state once the first subscription to ["f1"] is in. *)
Definition one_subscriber : LongPoll := lp (after [Subscribe (Some ["f1"])]).

(** Two events published, one after the other, to a feed of an idle
    subscriber. *)
Definition two_buffered : list action :=
  [Subscribe (Some ["f1"]); Publish "f1" (Some "P1") 100;
   Publish "f1" (Some "P2") 101].

(** Two feeds, one subscriber of the first. *)
Definition boot2 : racing nat :=
  mk_racing (init (Some ["f1"; "f2"]) 0%nat) [].

Definition after_fine (acts : list fine_action) : racing nat :=
  default boot2 (run_fine acts boot2).

(** Two [NewEvent] calls, one for each feed, that both read the length of
    the Event Log before either writes. *)
Definition overlap_two_feeds : list fine_action :=
  [Step (Subscribe (Some ["f1"]));
   PublishRead "f1" (Some "P") 100; PublishRead "f2" (Some "Q") 101;
   PublishWrite 0; PublishWrite 0].

(** The same with both calls for the feed of the subscriber. *)
Definition overlap_one_feed : list fine_action :=
  [Step (Subscribe (Some ["f1"]));
   PublishRead "f1" (Some "P") 100; PublishRead "f1" (Some "Q") 101;
   PublishWrite 0; PublishWrite 0].

(** A listen call that times out. *)
Definition timed_out : list action :=
  [Subscribe (Some ["f1"]); Listen (Some [T0]); Sync 1 0; Run 0].

(** * Theorems *)

(** ** Token generation *)

Lemma charset_length : String.length charset = 62%nat.
Proof. reflexivity. Qed.

Lemma charset_at_from_charset (k : Z) :
  0 ≤ k < 62 → ∃ c, charset_at k = Some c ∧ from_charset c.
Proof.
  intros Hk. unfold charset_at.
  destruct (Z.ltb_spec k 0) as [Hneg|_]; [lia|].
  assert (Hn : (Z.to_nat k < 62)%nat) by lia.
  revert Hn. generalize (Z.to_nat k). clear k Hk. intros n Hn.
  assert (Hall :
    Forall (λ c, from_charset c) (list_ascii_of_string charset)).
  { apply Forall_forall. intros c Hc. split; [|exact Hc].
    apply list_elem_of_In in Hc. revert c Hc.
    apply (proj1 (forallb_forall is_alnum _)). vm_compute. reflexivity. }
  assert (Hget : ∀ (s : string) (i : nat),
             (i < String.length s)%nat →
             ∃ c, String.get i s = Some c ∧ c ∈ list_ascii_of_string s).
  { induction s as [|a s IH]; intros i Hi; simpl in *; [lia|].
    destruct i as [|i].
    - exists a. split; [reflexivity|]. apply list_elem_of_here.
    - destruct (IH i) as (c & Hc & Hin); [lia|].
      exists c. split; [exact Hc|]. by apply list_elem_of_further. }
  destruct (Hget charset n) as (c & Hc & Hin).
  { rewrite charset_length. exact Hn. }
  exists c. split; [exact Hc|].
  rewrite Forall_forall in Hall. by apply Hall.
Qed.

Lemma length_string_of_list_ascii (b : list ascii) :
  String.length (string_of_list_ascii b) = length b.
Proof. induction b as [|c b IH]; simpl; congruence. Qed.

Section token_facts.
Context {R : Type} `{!RandSource R}.

Lemma token_bytes_total (n : nat) (r : R) :
  ∃ b r', token_bytes n r = Some (b, r')
          ∧ length b = n ∧ Forall from_charset b.
Proof.
  revert r. induction n as [|n IH]; intros r; cbn [token_bytes].
  - exists [], r. repeat split; constructor.
  - change (Z.of_nat (String.length charset)) with 62.
    pose proof (Intn_range r 62) as Hr.
    destruct (Intn r 62) as [k r1]. cbn [fst] in Hr.
    destruct (charset_at_from_charset k) as (c & -> & Hc); [lia|].
    destruct (IH r1) as (b & r2 & -> & Hlen & Hall).
    exists (c :: b), r2. repeat split; simpl; [congruence|].
    by constructor.
Qed.

Lemma GetNewToken_total (n : Z) (r : R) :
  0 ≤ n →
  ∃ token r', GetNewToken n r = Some (token, r')
              ∧ Z.of_nat (String.length token) = n ∧ alphanumeric token.
Proof.
  intros Hn. unfold GetNewToken.
  destruct (Z.ltb_spec n 0) as [Hneg|_]; [lia|].
  destruct (token_bytes_total (Z.to_nat n) r) as (b & r' & -> & Hlen & Hall).
  exists (string_of_list_ascii b), r'. split; [reflexivity|]. split.
  - rewrite length_string_of_list_ascii, Hlen. lia.
  - unfold alphanumeric. by rewrite list_ascii_of_string_of_list_ascii.
Qed.

Lemma subscribe_with_token (token : string) (feeds fs : list string)
    (t : string) (lp0 lp' : LongPoll) :
  subscribe_with token feeds lp0 = (SubscriptionResponse t fs, lp') →
  t = token.
Proof.
  unfold subscribe_with.
  destruct (first_unavailable _ feeds); [discriminate|].
  destruct (subscribe_all _ _ _) as [m []]; [|discriminate].
  by intros [= <- _ _].
Qed.

(** C10: [GetNewToken(n)], for [n >= 0], returns a string of exactly [n]
    characters, each drawn from the 62-character charset of letters and
    digits; every token that [SubscribeHandler] hands out is such a string
    of 32 characters. *)
Theorem GetNewToken_alphanumeric (n : Z) (r : R) :
  0 ≤ n →
  String.length charset = 62%nat
  ∧ (∃ token r', GetNewToken n r = Some (token, r')
                 ∧ Z.of_nat (String.length token) = n
                 ∧ alphanumeric token)
  ∧ (∀ feeds lp0 token fs r' lp',
        SubscribeHandler feeds r lp0 = (SubscriptionResponse token fs, r', lp')
        → String.length token = 32%nat ∧ alphanumeric token).
Proof.
  intros Hn. split; [reflexivity|]. split; [by apply GetNewToken_total|].
  intros feeds lp0 token fs r' lp'. unfold SubscribeHandler.
  destruct feeds as [feeds|]; [|discriminate].
  destruct (GetNewToken_total 32 r) as (t & r1 & -> & Hlen & Hal); [lia|].
  destruct (subscribe_with t feeds lp0) as [resp lp1] eqn:Hsub.
  intros [= -> _ _]. apply subscribe_with_token in Hsub as ->.
  split; [lia | exact Hal].
Qed.

End token_facts.

Lemma GetNewToken_alphanumeric_witness :
  String.length charset = 62%nat
  ∧ (∃ token r', GetNewToken 32 0%nat = Some (token, r')
                 ∧ Z.of_nat (String.length token) = 32
                 ∧ alphanumeric token)
  ∧ (∀ feeds lp0 token fs r' lp',
        SubscribeHandler feeds 0%nat lp0
          = (SubscriptionResponse token fs, r', lp')
        → String.length token = 32%nat ∧ alphanumeric token).
Proof. apply (GetNewToken_alphanumeric 32 0%nat). lia. Defined.

(** ** Feed registration *)

(** C6, as stated, fails: registering ["f1"] again, once a token has
    subscribed to it, replaces its subscriber set by an empty one. *)
Lemma AddFeed_forgets_subscribers :
  globalFeedToClients one_subscriber !! "f1" = Some {[T0 := true]}
  ∧ globalFeedToClients (AddFeed "f1" one_subscriber) !! "f1" = Some ∅
  ∧ AddFeed "f1" one_subscriber ≠ one_subscriber.
Proof.
  split; [vm_compute; reflexivity|]. split; [vm_compute; reflexivity|].
  intros Heq.
  apply (f_equal (λ l, globalFeedToClients l !! "f1" ≫= (.!! T0))) in Heq.
  vm_compute in Heq. discriminate Heq.
Qed.

Lemma AddFeed_nonempty (feed : string) (lp0 : LongPoll) :
  feed ≠ "" →
  AddFeed feed lp0
  = set_globalFeedToClients (<[feed := ∅]> (globalFeedToClients lp0)) lp0.
Proof. intros Hne. unfold AddFeed. by destruct feed. Qed.

(** C6, amended: [AddFeed] is idempotent as an operation (registering a
    name twice in a row is registering it once) and keeps the set of
    registered names when the name is already there, but it binds the name
    to an empty subscriber set whatever the set was before; the other
    feeds keep their subscribers, and the empty name is ignored. *)
Theorem AddFeed_idempotent_resets (feed : string) (lp0 : LongPoll) :
  AddFeed feed (AddFeed feed lp0) = AddFeed feed lp0
  ∧ (feed ≠ "" → globalFeedToClients (AddFeed feed lp0) !! feed = Some ∅)
  ∧ (feed = "" → AddFeed feed lp0 = lp0)
  ∧ (is_Some (globalFeedToClients lp0 !! feed) →
     dom (globalFeedToClients (AddFeed feed lp0))
     = dom (globalFeedToClients lp0))
  ∧ (∀ other, other ≠ feed →
       globalFeedToClients (AddFeed feed lp0) !! other
       = globalFeedToClients lp0 !! other).
Proof.
  destruct (decide (feed = "")) as [->|Hne].
  { repeat split; try done. }
  rewrite !AddFeed_nonempty by done. destruct lp0; simpl.
  repeat split.
  - unfold set_globalFeedToClients; simpl. by rewrite insert_insert_eq.
  - intros _. apply lookup_insert_eq.
  - done.
  - intros Hreg. rewrite dom_insert_L.
    apply elem_of_dom in Hreg. apply subseteq_union_1_L.
    by apply singleton_subseteq_l.
  - intros other Hother. by apply lookup_insert_ne.
Qed.

Lemma AddFeed_idempotent_resets_witness :
  AddFeed "f1" (AddFeed "f1" one_subscriber) = AddFeed "f1" one_subscriber
  ∧ globalFeedToClients (AddFeed "f1" one_subscriber) !! "f1" = Some ∅
  ∧ dom (globalFeedToClients (AddFeed "f1" one_subscriber))
    = dom (globalFeedToClients one_subscriber).
Proof.
  destruct (AddFeed_idempotent_resets "f1" one_subscriber)
    as (Hidem & Hreset & _ & Hdom & _).
  split; [exact Hidem|]. split.
  - apply Hreset. discriminate.
  - apply Hdom. vm_compute. eexists. reflexivity.
Defined.

(** ** Publishing to a feed that is not registered *)

(** C2, as stated, fails: publishing to a feed that was never registered
    returns a nil error and logs the event. *)
Lemma NewEvent_accepts_unknown_feed :
  globalFeedToClients (lp boot) !! "nope" = None
  ∧ (NewEvent "nope" (Some "p") 7 (lp boot)).1.1 = None
  ∧ globalEvents (NewEvent "nope" (Some "p") 7 (lp boot)).1.2 !! 0
    = Some {| Data := Some "p"; Feed := "nope"; Timestamp := 7 |}.
Proof. by vm_compute. Qed.

(** C2, amended: [NewEvent] never fails.  For every feed name, registered
    or not, it returns a nil error and stores the event under the id
    [len(globalEvents)], which is a fresh key whenever the log is dense;
    for a feed that is not registered no pending list changes and no
    client is notified. *)
Theorem NewEvent_never_fails (feed : string) (obj : object) (now : Z)
    (lp0 : LongPoll) :
  let newIndex := Z.of_nat (size (globalEvents lp0)) in
  let result := NewEvent feed obj now lp0 in
  result.1.1 = None
  ∧ globalEvents result.1.2
    = <[newIndex :=
          {| Data := obj; Feed := feed; Timestamp := int32_of now |}]>
        (globalEvents lp0)
  ∧ (log_dense lp0 → globalEvents lp0 !! newIndex = None)
  ∧ (globalFeedToClients lp0 !! feed = None →
     globalClientToNewEvents result.1.2 = globalClientToNewEvents lp0
     ∧ result.2 = []).
Proof.
  intros newIndex result. split; [reflexivity|]. split; [reflexivity|].
  split.
  - intros Hdense. apply eq_None_not_Some. intros Hsome.
    apply Hdense in Hsome. unfold newIndex in Hsome. lia.
  - intros Hnone. unfold result, NewEvent, range_keys. simpl.
    rewrite Hnone. simpl. rewrite map_to_list_empty. simpl.
    split; [reflexivity|]. by rewrite map_to_list_empty.
Qed.

Lemma NewEvent_never_fails_witness :
  (NewEvent "nope" (Some "p") 7 (lp boot)).1.1 = None
  ∧ globalEvents (lp boot) !! 0 = None
  ∧ (NewEvent "nope" (Some "p") 7 (lp boot)).2 = [].
Proof.
  destruct (NewEvent_never_fails "nope" (Some "p") 7 (lp boot))
    as (Herr & _ & Hfresh & Hquiet).
  split; [exact Herr|]. split.
  - apply Hfresh. intros k.
    change (globalEvents (lp boot)) with (∅ : gmap Z event).
    rewrite lookup_empty, map_size_empty. split.
    + intros [e He]. discriminate He.
    + lia.
  - apply Hquiet. reflexivity.
Defined.

(** ** Subscription with an unknown feed *)

Lemma first_unavailable_unregistered (m : feedToClients)
    (feeds : list string) (feed : string) :
  first_unavailable m feeds = Some feed →
  ∃ before rest,
    feeds = (before ++ feed :: rest)%list
    ∧ m !! feed = None
    ∧ Forall (λ f, is_Some (m !! f)) before.
Proof.
  induction feeds as [|f fs IH]; simpl; [discriminate|].
  destruct (m !! f) as [clients|] eqn:Hf.
  - intros Hfirst. destruct (IH Hfirst) as (before & rest & -> & Hm & Hall).
    exists (f :: before), rest. split; [reflexivity|]. split; [exact Hm|].
    constructor; [by eexists | exact Hall].
  - intros [= <-]. exists [], fs. split; [reflexivity|]. split; [exact Hf|].
    constructor.
Qed.

(** What the failing path does for every input: the reply names the first
    feed that is not registered and the Feed Directory is untouched, but
    the token is entered in the Token Registry all the same. *)
Lemma subscribe_with_unavailable (token : string) (feeds : list string)
    (feed : string) (lp0 : LongPoll) :
  first_unavailable (globalFeedToClients lp0) feeds = Some feed →
  subscribe_with token feeds lp0
  = (ErrorResponse 500 ("Feed " ++ feed ++ " is not available"),
     set_globalClients (<[token := false]> (globalClients lp0)) lp0).
Proof. intros Hfirst. unfold subscribe_with. simpl. by rewrite Hfirst. Qed.

(** C5: the code at a failing input.  A subscription that names the
    unregistered feed ["nope"] is refused with the 500 reply naming it and
    leaves the Feed Directory as it was, yet the Token Registry has gained
    the freshly minted token, which a later listen call accepts. *)
Theorem SubscribeHandler_failure_registers_token :
  let result := SubscribeHandler (Some ["f1"; "nope"]) 0%nat (lp boot) in
  result.1.1 = ErrorResponse 500 "Feed nope is not available"
  ∧ globalFeedToClients result.2 = globalFeedToClients (lp boot)
  ∧ globalClients (lp boot) !! T0 = None
  ∧ globalClients result.2 !! T0 = Some false
  ∧ (ListenHandler_start (Some [T0]) 0%nat (lp boot)).1
    = Replied (ErrorResponse 401 "Unauthorized")
  ∧ (ListenHandler_start (Some [T0]) 0%nat result.2).1
    = Receiving T0 1 0%nat.
Proof. by vm_compute. Qed.

(** ** Consistency of the stores *)

Lemma register_feeds_no_subscriber (feeds : list string)
    (m : feedToClients) :
  (∀ f clients, m !! f = Some clients → clients = ∅) →
  ∀ f clients, register_feeds feeds m !! f = Some clients → clients = ∅.
Proof.
  revert m. induction feeds as [|feed rest IH]; intros m Hm; simpl.
  - exact Hm.
  - apply IH. intros f clients. rewrite lookup_insert.
    destruct (decide (feed = f)); [by intros [= <-] | apply Hm].
Qed.

Lemma consistent_New (Feeds : option (list string)) : consistent (New Feeds).
Proof.
  assert (Hnone : ∀ t f, ¬ subscribed (New Feeds) t f).
  { intros t f (clients & Hf & Ht). destruct Feeds as [feeds|]; simpl in Hf.
    - apply register_feeds_no_subscriber in Hf as ->.
      + rewrite lookup_empty in Ht. by destruct Ht.
      + intros f' c'. by rewrite lookup_empty.
    - by rewrite lookup_empty in Hf. }
  assert (Hpend : ∀ t, pending_events (New Feeds) t = []).
  { intros t. by destruct Feeds. }
  split.
  - intros k. assert (globalEvents (New Feeds) = ∅) as -> by by destruct Feeds.
    rewrite lookup_empty, map_size_empty. split; [by intros [? ?] | lia].
  - intros t id. rewrite Hpend. by intros ?%elem_of_nil.
  - intros t. rewrite Hpend. constructor.
  - intros t f Hsub. by apply Hnone in Hsub.
Qed.

(** A step that leaves the Event Log alone, clears pending lists at most,
    and only adds subscribers keeps the stores consistent. *)
Lemma consistent_weaken (lp0 lp' : LongPoll) :
  consistent lp0 →
  globalEvents lp' = globalEvents lp0 →
  (∀ t, pending_events lp' t = pending_events lp0 t
        ∨ pending_events lp' t = []) →
  (∀ t f, subscribed lp0 t f → subscribed lp' t f) →
  subscribers_registered lp' →
  consistent lp'.
Proof.
  intros [Hd Hs Hi Hr] Hev Hpend Hsub Hreg. split.
  - unfold log_dense. by rewrite Hev.
  - intros t id Hin. destruct (Hpend t) as [Heq|Heq]; rewrite Heq in Hin.
    + destruct (Hs t id Hin) as (e & He & Hsube).
      exists e. rewrite Hev. split; [exact He | by apply Hsub].
    + by apply elem_of_nil in Hin.
  - intros t. destruct (Hpend t) as [-> | ->]; [apply Hi | constructor].
  - exact Hreg.
Qed.

(** The same, for a step that touches neither the Feed Directory nor the
    keys of the Token Registry. *)
Lemma consistent_frame (lp0 lp' : LongPoll) :
  consistent lp0 →
  globalEvents lp' = globalEvents lp0 →
  (∀ t, pending_events lp' t = pending_events lp0 t
        ∨ pending_events lp' t = []) →
  globalFeedToClients lp' = globalFeedToClients lp0 →
  (∀ t, is_Some (globalClients lp0 !! t) → is_Some (globalClients lp' !! t)) →
  consistent lp'.
Proof.
  intros Hc Hev Hpend Hfeeds Hclients.
  assert (Hsub : ∀ t f, subscribed lp0 t f ↔ subscribed lp' t f).
  { intros t f. unfold subscribed. by rewrite Hfeeds. }
  apply (consistent_weaken lp0); try done.
  - intros t f. apply Hsub.
  - intros t f Hs. apply Hclients, (cons_registered _ Hc t f), Hsub, Hs.
Qed.

Lemma is_Some_insert_mono {V} (m : gmap string V) (k t : string) (v : V) :
  is_Some (m !! t) → is_Some (<[k := v]> m !! t).
Proof.
  intros Ht. rewrite lookup_insert. by destruct (decide (k = t)).
Qed.

(** *** Subscription *)

Lemma subscribe_all_grows (token : string) (feeds : list string)
    (m : feedToClients) :
  (∀ t f clients,
     m !! f = Some clients → is_Some (clients !! t) →
     ∃ clients', (subscribe_all token feeds m).1 !! f = Some clients'
                 ∧ is_Some (clients' !! t))
  ∧ (∀ t f clients',
       (subscribe_all token feeds m).1 !! f = Some clients' →
       is_Some (clients' !! t) →
       t = token ∨ ∃ clients, m !! f = Some clients ∧ is_Some (clients !! t)).
Proof.
  revert m. induction feeds as [|feed rest IH]; intros m; simpl.
  - split; [by eauto | by eauto].
  - destruct (m !! feed) as [cs|] eqn:Hfeed; simpl; [|split; by eauto].
    destruct (IH (<[feed := <[token := true]> cs]> m)) as [IH1 IH2].
    split.
    + intros t f clients Hf Ht.
      destruct (decide (feed = f)) as [->|Hne].
      * apply (IH1 t f (<[token := true]> cs)); [apply lookup_insert_eq|].
        apply is_Some_insert_mono. by simplify_eq.
      * apply (IH1 t f clients); [by rewrite lookup_insert_ne | done].
    + intros t f clients' Hf Ht.
      destruct (IH2 t f clients' Hf Ht) as [->|(clients & Hc & Hct)];
        [by left|].
      rewrite lookup_insert in Hc.
      destruct (decide (feed = f)) as [->|Hne].
      * injection Hc as <-. rewrite lookup_insert in Hct.
        destruct (decide (token = t)) as [->|]; [by left|].
        right. by exists cs.
      * right. by exists clients.
Qed.

Lemma consistent_subscribe_with (token : string) (feeds : list string)
    (lp0 : LongPoll) :
  consistent lp0 → consistent (subscribe_with token feeds lp0).2.
Proof.
  intros Hc. unfold subscribe_with.
  set (lp1 := set_globalClients (<[token := false]> (globalClients lp0)) lp0).
  assert (Hc1 : consistent lp1).
  { apply (consistent_frame lp0); try done; [by left|].
    intros t. apply is_Some_insert_mono. }
  destruct (first_unavailable (globalFeedToClients lp1) feeds); [done|].
  pose proof (subscribe_all_grows token feeds (globalFeedToClients lp1))
    as [Hup Hdown].
  destruct (subscribe_all token feeds (globalFeedToClients lp1))
    as [m completed]. simpl in Hup, Hdown.
  assert (consistent (set_globalFeedToClients m lp1)).
  { apply (consistent_weaken lp1); try done; [by left | |].
    - intros t f (clients & Hf & Ht). by apply (Hup t f clients).
    - intros t f (clients' & Hf & Ht). simpl in Hf. simpl.
      destruct (Hdown t f clients' Hf Ht) as [->|(clients & Hcl & Hct)].
      + rewrite lookup_insert_eq. by eexists.
      + apply (cons_registered _ Hc1 t f). by exists clients. }
  by destruct completed.
Qed.

(** *** Listening *)

Lemma fetch_pending (token t : string) (lp0 : LongPoll) :
  pending_events (ListenHandler_fetch token lp0).2 t
  = if decide (token = t) then [] else pending_events lp0 t.
Proof.
  unfold ListenHandler_fetch, pending_events. simpl.
  rewrite lookup_insert. by destruct (decide (token = t)).
Qed.

Lemma consistent_fetch (token : string) (lp0 : LongPoll) :
  consistent lp0 → consistent (ListenHandler_fetch token lp0).2.
Proof.
  intros Hc. apply (consistent_frame lp0); try done.
  intros t. rewrite fetch_pending.
  destruct (decide (token = t)); [by right | by left].
Qed.

Lemma consistent_register (token : string) (cur : Z) (c : nat)
    (lp0 : LongPoll) :
  consistent lp0 → consistent (ListenHandler_register token cur c lp0).2.
Proof.
  intros Hc. unfold ListenHandler_register.
  set (lp2 := set_globalConnectionChannel _ _).
  assert (Hc2 : consistent lp2).
  { apply (consistent_frame lp0); try done. by left. }
  destruct (Z.of_nat (length (pending_events lp2 token)) =? 0).
  - simpl. apply (consistent_frame lp2); try done; [by left|].
    intros t. apply is_Some_insert_mono.
  - pose proof (consistent_fetch token lp2 Hc2) as Hf.
    by destruct (ListenHandler_fetch token lp2).
Qed.

Lemma consistent_start (tokens : option (list string)) (c : nat)
    (lp0 : LongPoll) :
  consistent lp0 → consistent (ListenHandler_start tokens c lp0).2.
Proof.
  intros Hc. unfold ListenHandler_start.
  destruct tokens as [[|token rest]|]; try done.
  destruct (globalClients lp0 !! token); [|done].
  set (lp1 := set_globalLastConnection _ lp0).
  assert (Hc1 : consistent lp1).
  { apply (consistent_frame lp0); try done. by left. }
  destruct (globalClientToConnection lp1 !! token); [done|].
  by apply consistent_register.
Qed.

Lemma consistent_wake (token operation : string) (lp0 : LongPoll) :
  consistent lp0 → consistent (ListenHandler_wake token operation lp0).2.
Proof.
  intros Hc. unfold ListenHandler_wake.
  destruct (String.eqb operation "ABORT"); [done|].
  destruct (String.eqb operation "TIMEOUT").
  - apply (consistent_frame lp0); try done. by left.
  - by apply consistent_fetch.
Qed.

Lemma consistent_notify_finish (client : string) (lp0 : LongPoll) :
  consistent lp0 → consistent (notifyEvent_finish client lp0).
Proof.
  intros Hc. apply (consistent_frame lp0); try done; [by left|].
  intros t. apply is_Some_insert_mono.
Qed.

(** *** Publishing *)

Lemma classic_subscribed (lp0 : LongPoll) (t f : string) :
  subscribed lp0 t f ∨ ¬ subscribed lp0 t f.
Proof.
  unfold subscribed. destruct (globalFeedToClients lp0 !! f) as [clients|].
  - destruct (clients !! t) as [b|] eqn:Ht.
    + left. exists clients. split; [done | by exists b].
    + right. intros (? & [= <-] & [? ?]). congruence.
  - right. by intros (? & ? & ?).
Qed.

Lemma elem_of_range_keys {V} (m : gmap string V) (k : string) :
  k ∈ range_keys m ↔ is_Some (m !! k).
Proof.
  unfold range_keys. rewrite list_elem_of_fmap. split.
  - intros ([k' v] & -> & Hin). apply elem_of_map_to_list in Hin.
    by exists v.
  - intros [v Hv]. exists (k, v). split; [done|].
    by apply elem_of_map_to_list.
Qed.

(** The fan-out loop appends the new id once to the list of every client
    it visits and leaves the other lists alone. *)
Lemma foldl_append_event (newIndex : Z) (keys : list string)
    (m : clientToNewEvents) (c : string) :
  NoDup keys →
  default [] (foldl (append_event newIndex) m keys !! c)
  = if decide (c ∈ keys) then (default [] (m !! c) ++ [newIndex])%list
    else default [] (m !! c).
Proof.
  revert m. induction keys as [|k ks IH]; intros m Hnd; simpl.
  - destruct (decide (c ∈ [])) as [Hin|_]; [|done].
    by apply elem_of_nil in Hin.
  - apply NoDup_cons in Hnd as [Hk Hks]. rewrite (IH _ Hks).
    unfold append_event at 1 2. rewrite lookup_insert.
    destruct (decide (c ∈ ks)) as [Hin|Hout].
    + destruct (decide (k = c)) as [->|Hne]; [done|].
      rewrite decide_True; [done | by apply list_elem_of_further].
    + destruct (decide (k = c)) as [->|Hne].
      * rewrite decide_True; [done | apply list_elem_of_here].
      * rewrite decide_False; [done|].
        intros [?|?]%elem_of_cons; by simplify_eq.
Qed.

Lemma NewEvent_pending (feed : string) (obj : object) (now : Z)
    (lp0 : LongPoll) (t : string) :
  (subscribed lp0 t feed →
   pending_events (NewEvent feed obj now lp0).1.2 t
   = (pending_events lp0 t ++ [Z.of_nat (size (globalEvents lp0))])%list)
  ∧ (¬ subscribed lp0 t feed →
     pending_events (NewEvent feed obj now lp0).1.2 t
     = pending_events lp0 t).
Proof.
  unfold NewEvent, pending_events. simpl.
  rewrite foldl_append_event by apply NoDup_fst_map_to_list.
  assert (Hiff : t ∈ range_keys (default ∅ (globalFeedToClients lp0 !! feed))
                 ↔ subscribed lp0 t feed).
  { rewrite elem_of_range_keys. unfold subscribed.
    destruct (globalFeedToClients lp0 !! feed) as [clients|]; simpl.
    - split; [by exists clients | by intros (? & [= <-] & ?)].
    - rewrite lookup_empty. split; [by intros [? ?] | by intros (? & ? & ?)]. }
  destruct (decide (t ∈ _)) as [Hin|Hout].
  - split; [done|]. intros Hn. by apply Hiff in Hin.
  - split; [|done]. intros Hs. by apply Hiff in Hs.
Qed.

Lemma NewEvent_log (feed : string) (obj : object) (now : Z)
    (lp0 : LongPoll) :
  globalEvents (NewEvent feed obj now lp0).1.2
  = <[Z.of_nat (size (globalEvents lp0)) :=
        {| Data := obj; Feed := feed; Timestamp := int32_of now |}]>
      (globalEvents lp0).
Proof. reflexivity. Qed.

Lemma log_dense_fresh (lp0 : LongPoll) :
  log_dense lp0 →
  globalEvents lp0 !! Z.of_nat (size (globalEvents lp0)) = None.
Proof.
  intros Hd. apply eq_None_not_Some. intros Hs. apply Hd in Hs. lia.
Qed.

Lemma consistent_NewEvent (feed : string) (obj : object) (now : Z)
    (lp0 : LongPoll) :
  consistent lp0 → consistent (NewEvent feed obj now lp0).1.2.
Proof.
  intros Hc. pose proof (log_dense_fresh lp0 (cons_dense _ Hc)) as Hfresh.
  set (n := Z.of_nat (size (globalEvents lp0))) in *.
  assert (Hsub : ∀ t f, subscribed (NewEvent feed obj now lp0).1.2 t f
                        ↔ subscribed lp0 t f) by done.
  assert (Hold : ∀ t id, id ∈ pending_events lp0 t → id < n).
  { intros t id Hin. destruct (cons_subscribed _ Hc t id Hin) as (e & He & _).
    assert (is_Some (globalEvents lp0 !! id)) as Hs by by exists e.
    apply (cons_dense _ Hc) in Hs. unfold n. lia. }
  split.
  - intros k. rewrite NewEvent_log. fold n.
    rewrite map_size_insert_None by done. rewrite lookup_insert.
    destruct (decide (n = k)) as [<-|Hne].
    + split; [unfold n; lia | by eexists].
    + rewrite (cons_dense _ Hc k). fold n. lia.
  - intros t id. rewrite NewEvent_log. fold n. intros Hin.
    destruct (NewEvent_pending feed obj now lp0 t) as [Hyes Hno].
    assert (Hcase : id ∈ pending_events lp0 t
                    ∨ (id = n ∧ subscribed lp0 t feed)).
    { destruct (classic_subscribed lp0 t feed) as [Hs|Hs].
      - rewrite (Hyes Hs) in Hin.
        apply elem_of_app in Hin as [?|Hin]; [by left|].
        apply list_elem_of_singleton in Hin. by right.
      - rewrite (Hno Hs) in Hin. by left. }
    destruct Hcase as [Hin'|[-> Hsubf]].
    + destruct (cons_subscribed _ Hc t id Hin') as (e & He & Hse).
      exists e. split; [|by apply Hsub].
      rewrite lookup_insert_ne; [done|].
      intros <-. apply Hold in Hin'. lia.
    + eexists. split; [apply lookup_insert_eq|]. by apply Hsub.
  - intros t. destruct (NewEvent_pending feed obj now lp0 t) as [Hyes Hno].
    destruct (classic_subscribed lp0 t feed) as [Hs|Hs];
      [rewrite (Hyes Hs) | rewrite (Hno Hs); apply (cons_increasing _ Hc)].
    apply StronglySorted_app. split; [|split].
    + intros x y Hx Hy. apply list_elem_of_singleton in Hy as ->.
      by apply (Hold t).
    + apply (cons_increasing _ Hc).
    + repeat constructor.
  - intros t f Hs. apply (cons_registered _ Hc t f). by apply Hsub.
Qed.

(** Registering, with [AddFeed] of the later revision, a name that is not
    yet in the Feed Directory keeps the stores consistent.  (Registering
    a name again does not: it empties the subscriber set.) *)
Lemma consistent_AddFeed_fresh (feed : string) (lp0 : LongPoll) :
  consistent lp0 → globalFeedToClients lp0 !! feed = None →
  consistent (AddFeed feed lp0).
Proof.
  intros Hc Hfresh. unfold AddFeed. destruct (0 <? _); [|done].
  apply (consistent_weaken lp0); try done; [by left | |].
  - intros t f (clients & Hf & Ht). exists clients. split; [|done].
    simpl. rewrite lookup_insert_ne; [done | congruence].
  - intros t f (clients & Hf & Ht). simpl in *.
    rewrite lookup_insert in Hf. destruct (decide (feed = f)) as [->|Hne].
    + injection Hf as <-. rewrite lookup_empty in Ht. by destruct Ht.
    + apply (cons_registered _ Hc t f). by exists clients.
Qed.

(** *** The Event Log is append-only *)

Lemma subscribe_with_log (token : string) (feeds : list string)
    (lp0 : LongPoll) :
  globalEvents (subscribe_with token feeds lp0).2 = globalEvents lp0.
Proof. unfold subscribe_with. by repeat case_match. Qed.

Lemma fetch_log (token : string) (lp0 : LongPoll) :
  globalEvents (ListenHandler_fetch token lp0).2 = globalEvents lp0.
Proof. reflexivity. Qed.

Lemma register_log (token : string) (cur : Z) (c : nat) (lp0 : LongPoll) :
  globalEvents (ListenHandler_register token cur c lp0).2 = globalEvents lp0.
Proof.
  unfold ListenHandler_register, ListenHandler_fetch.
  by destruct (_ =? _).
Qed.

Lemma start_log (tokens : option (list string)) (c : nat) (lp0 : LongPoll) :
  globalEvents (ListenHandler_start tokens c lp0).2 = globalEvents lp0.
Proof.
  unfold ListenHandler_start. repeat case_match; try done.
  by rewrite register_log.
Qed.

Lemma wake_log (token operation : string) (lp0 : LongPoll) :
  globalEvents (ListenHandler_wake token operation lp0).2 = globalEvents lp0.
Proof. unfold ListenHandler_wake. by repeat case_match. Qed.

Section reachability.
Context {R : Type} `{!RandSource R}.

Lemma consistent_SubscribeHandler (feeds : option (list string)) (r : R)
    (lp0 : LongPoll) :
  consistent lp0 → consistent (SubscribeHandler feeds r lp0).2.
Proof.
  intros Hc. unfold SubscribeHandler. destruct feeds as [feeds|]; [|done].
  destruct (GetNewToken 32 r) as [[token r']|]; [|done].
  pose proof (consistent_subscribe_with token feeds lp0 Hc).
  by destruct (subscribe_with token feeds lp0).
Qed.

Lemma SubscribeHandler_log (feeds : option (list string)) (r : R)
    (lp0 : LongPoll) :
  globalEvents (SubscribeHandler feeds r lp0).2 = globalEvents lp0.
Proof.
  unfold SubscribeHandler. destruct feeds as [feeds|]; [|done].
  destruct (GetNewToken 32 r) as [[token r']|]; [|done].
  pose proof (subscribe_with_log token feeds lp0).
  by destruct (subscribe_with token feeds lp0).
Qed.

Lemma settle_listen_lp (slot : option nat) (l : listening)
    (lp' : LongPoll) (s : system R) :
  lp (settle_listen slot l lp' s) = lp'.
Proof. by destruct l. Qed.

(** Every step of the scheduler keeps the stores consistent and only adds
    to the Event Log. *)
Lemma exec_consistent (a : action) (s s' : system R) :
  consistent (lp s) → exec a s = Some s' →
  consistent (lp s') ∧ globalEvents (lp s) ⊆ globalEvents (lp s').
Proof.
  intros Hc. destruct a as [feeds|tokens|feed obj now|i|i j]; unfold exec.
  - pose proof (consistent_SubscribeHandler feeds (rng s) (lp s) Hc) as H1.
    pose proof (SubscribeHandler_log feeds (rng s) (lp s)) as H2.
    destruct (SubscribeHandler feeds (rng s) (lp s)) as [[resp r'] lp'].
    intros [= <-]. simpl in *. by rewrite H2.
  - pose proof (consistent_start tokens (chans s) (lp s) Hc) as H1.
    pose proof (start_log tokens (chans s) (lp s)) as H2.
    destruct (ListenHandler_start tokens (chans s) (lp s)) as [l lp'].
    intros [= <-]. rewrite settle_listen_lp. simpl in *. by rewrite H2.
  - pose proof (consistent_NewEvent feed obj now (lp s) Hc) as H1.
    pose proof (NewEvent_log feed obj now (lp s)) as H2.
    pose proof (log_dense_fresh (lp s) (cons_dense _ Hc)) as H3.
    destruct (NewEvent feed obj now (lp s)) as [[err lp'] clients].
    intros [= <-]. simpl in *. split; [done|].
    rewrite H2. by apply insert_subseteq.
  - destruct (pool s !! i) as [[]|]; try done.
    + pose proof (consistent_register token currentConnection (chans s)
                    (lp s) Hc) as H1.
      pose proof (register_log token currentConnection (chans s) (lp s))
        as H2.
      destruct (ListenHandler_register _ _ _ _) as [l lp'].
      intros [= <-]. rewrite settle_listen_lp. simpl in *. by rewrite H2.
    + pose proof (consistent_wake token operation (lp s) Hc) as H1.
      pose proof (wake_log token operation (lp s)) as H2.
      destruct (ListenHandler_wake _ _ _) as [resp lp'].
      intros [= <-]. simpl in *. by rewrite H2.
    + intros [= <-]. by simpl.
    + intros [= <-]. simpl. split; [|done].
      by apply consistent_notify_finish.
  - destruct (pool s !! i ≫= offered_send) as [[[c op] g]|]; [|done].
    destruct (pool s !! j) as [[]|]; try done.
    case_decide; [|done]. intros [= <-]. by simpl.
Qed.

Lemma run_consistent (acts : list action) (s s' : system R) :
  consistent (lp s) → run acts s = Some s' →
  consistent (lp s') ∧ globalEvents (lp s) ⊆ globalEvents (lp s').
Proof.
  revert s. induction acts as [|a rest IH]; intros s Hc; simpl.
  - intros [= <-]. done.
  - destruct (exec a s) as [s1|] eqn:Hexec; [|done]. intros Hrun.
    destruct (exec_consistent a s s1 Hc Hexec) as [Hc1 Hsub1].
    destruct (IH s1 Hc1 Hrun) as [Hc' Hsub']. split; [done|].
    by etrans.
Qed.

Lemma reachable_consistent (s : system R) :
  reachable s → consistent (lp s).
Proof.
  intros (Feeds & seed & acts & Hrun).
  by apply (run_consistent acts (init Feeds seed) s (consistent_New Feeds)).
Qed.

End reachability.

(** ** What a listen call delivers *)

Lemma fetch_reply (token : string) (lp0 : LongPoll) :
  (ListenHandler_fetch token lp0).1
  = EventResponse (log_entries lp0 (pending_events lp0 token)).
Proof. reflexivity. Qed.

Lemma register_reply (token : string) (cur : Z) (c : nat)
    (lp0 lp' : LongPoll) (Events : list event) :
  ListenHandler_register token cur c lp0
  = (Replied (EventResponse Events), lp') →
  Events = log_entries lp0 (pending_events lp0 token)
  ∧ pending_events lp' token = [].
Proof.
  unfold ListenHandler_register, ListenHandler_fetch.
  destruct (_ =? _); [discriminate|]. intros [= <- <-].
  split; [reflexivity|]. unfold pending_events. simpl.
  by rewrite lookup_insert_eq.
Qed.

Lemma start_reply (token : string) (rest : list string) (c : nat)
    (lp0 lp' : LongPoll) (Events : list event) :
  ListenHandler_start (Some (token :: rest)) c lp0
  = (Replied (EventResponse Events), lp') →
  Events = log_entries lp0 (pending_events lp0 token)
  ∧ pending_events lp' token = [].
Proof.
  unfold ListenHandler_start.
  destruct (globalClients lp0 !! token); [|discriminate].
  destruct (globalClientToConnection _ !! token); [discriminate|].
  intros Hreg. apply register_reply in Hreg. exact Hreg.
Qed.

Lemma wake_reply (token operation : string) (lp0 lp' : LongPoll)
    (Events : list event) :
  ListenHandler_wake token operation lp0 = (EventResponse Events, lp') →
  Events = log_entries lp0 (pending_events lp0 token)
  ∧ pending_events lp' token = [].
Proof.
  unfold ListenHandler_wake.
  destruct (String.eqb operation "ABORT"); [discriminate|].
  destruct (String.eqb operation "TIMEOUT"); [discriminate|].
  unfold ListenHandler_fetch. intros [= <- <-].
  split; [reflexivity|]. unfold pending_events. simpl.
  by rewrite lookup_insert_eq.
Qed.

Lemma log_entries_fetched (lp0 : LongPoll) (ids : list Z) :
  Forall (λ id, is_Some (globalEvents lp0 !! id)) ids →
  fetched lp0 ids (log_entries lp0 ids).
Proof.
  induction 1 as [|id ids [e He] _ IH]; [constructor|].
  unfold log_entries. rewrite fmap_cons. constructor; [|exact IH].
  by rewrite He.
Qed.

Lemma consistent_pending_logged (lp0 : LongPoll) :
  consistent lp0 → pending_logged lp0.
Proof.
  intros Hc t id Hin. destruct (cons_subscribed _ Hc t id Hin) as (e & He & _).
  by exists e.
Qed.

Lemma consistent_fetched (lp0 : LongPoll) (token : string) :
  consistent lp0 →
  fetched lp0 (pending_events lp0 token)
    (log_entries lp0 (pending_events lp0 token)).
Proof.
  intros Hc. apply log_entries_fetched, Forall_forall. intros id Hin.
  by apply (consistent_pending_logged lp0 Hc token).
Qed.

Lemma consistent_delivery_ok (lp0 : LongPoll) (token : string) :
  consistent lp0 →
  delivery_ok lp0 token (log_entries lp0 (pending_events lp0 token)).
Proof.
  intros Hc. split.
  - unfold log_entries. apply Forall_fmap, Forall_forall. intros id Hin.
    destruct (cons_subscribed _ Hc token id Hin) as (e & He & Hs).
    simpl. by rewrite He.
  - exists (pending_events lp0 token).
    split; [apply (cons_increasing _ Hc) | by apply consistent_fetched].
Qed.

Section delivery.
Context {R : Type} `{!RandSource R}.

(** C7, amended: at every state reached by steps in which no two
    [NewEvent] calls overlap (each call runs undivided, as every other
    piece does), the pending list of every token holds only ids of logged
    events of feeds the token is subscribed to, in increasing order of
    id; hence every reply with events that a listen call for the token
    gives, at its start, after registering or after waking, holds only
    events of its feeds, in publish order. *)
Theorem pending_only_subscribed_in_order (s : system R) :
  reachable s →
  pending_subscribed (lp s)
  ∧ pending_increasing (lp s)
  ∧ ∀ token Events lp',
      ((∃ rest fresh,
          ListenHandler_start (Some (token :: rest)) fresh (lp s)
          = (Replied (EventResponse Events), lp'))
       ∨ (∃ cur fresh,
            ListenHandler_register token cur fresh (lp s)
            = (Replied (EventResponse Events), lp'))
       ∨ (∃ operation,
            ListenHandler_wake token operation (lp s)
            = (EventResponse Events, lp'))) →
      delivery_ok (lp s) token Events.
Proof.
  intros Hreach. pose proof (reachable_consistent s Hreach) as Hc.
  split; [apply (cons_subscribed _ Hc)|].
  split; [apply (cons_increasing _ Hc)|].
  intros token Events lp' Hreply.
  assert (Events = log_entries (lp s) (pending_events (lp s) token)) as ->.
  { destruct Hreply as [(rest & fresh & H1)|[(cur & fresh & H2)|(op & H3)]].
    - by apply start_reply in H1 as [-> _].
    - by apply register_reply in H2 as [-> _].
    - by apply wake_reply in H3 as [-> _]. }
  by apply consistent_delivery_ok.
Qed.


End delivery.

(** C8, amended: a listen call for a registered token sends ["ABORT"] to
    the connection on record for the token whenever there is one, whether
    or not events are buffered: the send comes before the look at the
    pending list.  With no connection on record the call sends nothing. *)
Theorem listen_aborts_previous (lp0 : LongPoll) (token : string)
    (rest : list string) (fresh : nat) :
  is_Some (globalClients lp0 !! token) →
  (∀ previousConnectionIndex,
     globalClientToConnection lp0 !! token = Some previousConnectionIndex →
     ListenHandler_start (Some (token :: rest)) fresh lp0
     = (SendingAbort token (int_of (globalLastConnection lp0 + 1))
          (globalConnectionChannel lp0 !! previousConnectionIndex),
        set_globalLastConnection (int_of (globalLastConnection lp0 + 1)) lp0))
  ∧ (globalClientToConnection lp0 !! token = None →
     ∀ t cur target,
       (ListenHandler_start (Some (token :: rest)) fresh lp0).1
       ≠ SendingAbort t cur target).
Proof.
  intros [b Hb]. unfold ListenHandler_start. rewrite Hb. simpl. split.
  - intros prev Hprev. by rewrite Hprev.
  - intros Hnone. rewrite Hnone. intros t cur target.
    unfold ListenHandler_register, ListenHandler_fetch.
    by destruct (_ =? _).
Qed.

(** C3, amended: a listen call woken by ["ABORT"] answers [Superseded]
    (204) on the signal alone, for every state: it looks at no
    record, and neither the pending list nor any other part of the state
    changes. *)
Theorem abort_wake_returns_superseded (lp0 : LongPoll) (token : string) :
  ListenHandler_wake token "ABORT" lp0
  = (ErrorResponse 204 "Connection aborted", lp0)
  ∧ status_of (ListenHandler_wake token "ABORT" lp0).1 = Some Superseded
  ∧ pending_events (ListenHandler_wake token "ABORT" lp0).2 token
    = pending_events lp0 token.
Proof. by repeat split. Qed.

(** ** The scenarios, run *)

Lemma reachable_after (acts : list action) :
  is_Some (run acts boot) → reachable (after acts).
Proof.
  intros [s Hs]. exists (Some ["f1"]), 0%nat, acts.
  unfold after. fold boot. by rewrite Hs.
Qed.

Lemma pending_only_subscribed_in_order_witness :
  pending_events (lp (after two_buffered)) T0 = [0; 1]
  ∧ pending_subscribed (lp (after two_buffered))
  ∧ pending_increasing (lp (after two_buffered))
  ∧ delivery_ok (lp (after two_buffered)) T0
      [{| Data := Some "P1"; Feed := "f1"; Timestamp := 100 |};
       {| Data := Some "P2"; Feed := "f1"; Timestamp := 101 |}].
Proof.
  split; [vm_compute; reflexivity|].
  destruct (pending_only_subscribed_in_order (after two_buffered))
    as (H1 & H2 & H3).
  - apply reachable_after. vm_compute. eexists. reflexivity.
  - split; [exact H1|]. split; [exact H2|].
    assert (Hreply :
      (ListenHandler_start (Some [T0]) 0%nat (lp (after two_buffered))).1
      = Replied
          (EventResponse
             [{| Data := Some "P1"; Feed := "f1"; Timestamp := 100 |};
              {| Data := Some "P2"; Feed := "f1"; Timestamp := 101 |}]))
      by (vm_compute; reflexivity).
    destruct (ListenHandler_start (Some [T0]) 0%nat
                (lp (after two_buffered))) as [l lp'] eqn:Hstart.
    cbn [fst] in Hreply. subst l.
    apply (H3 T0 _ lp'). left. exists [], 0%nat. exact Hstart.
Defined.



(** C8, as stated, fails: with one event buffered and the connection of
    the earlier listen call still on record, the new listen call sends
    ["ABORT"] to that connection, and the earlier call takes it. *)
Lemma abort_sent_despite_buffered_events :
  pending_events (lp (after buffered_while_listening)) T0 = [0]
  ∧ (ListenHandler_start (Some [T0])
       (chans (after buffered_while_listening))
       (lp (after buffered_while_listening))).1
    = SendingAbort T0 2 (Some 0%nat)
  ∧ offered_send (ListenAtSend T0 2 (Some 0%nat))
    = Some (0%nat, "ABORT", ListenAfterSend T0 2)
  ∧ (run [Listen (Some [T0]); Sync 3 0] (after buffered_while_listening)
       ≫= λ s', pool s' !! 0%nat)
    = Some (ListenAfterRecv T0 1 "ABORT").
Proof. by vm_compute. Qed.

Lemma listen_aborts_previous_witness :
  ListenHandler_start (Some [T0]) 1%nat (lp (after buffered_while_listening))
  = (SendingAbort T0
       (int_of
          (globalLastConnection (lp (after buffered_while_listening)) + 1))
       (globalConnectionChannel (lp (after buffered_while_listening)) !! 1),
     set_globalLastConnection
       (int_of
          (globalLastConnection (lp (after buffered_while_listening)) + 1))
       (lp (after buffered_while_listening))).
Proof.
  destruct (listen_aborts_previous (lp (after buffered_while_listening))
              T0 [] 1%nat) as [Hsend _].
  - vm_compute. eexists. reflexivity.
  - apply Hsend. vm_compute. reflexivity.
Defined.

(** C3, as stated, fails: when the earlier listen call has taken the
    ["ABORT"] of the newer one, the active-connection record of the token
    still holds the connection id of the earlier call (the newer call
    writes the record after its send); the earlier call answers
    [Superseded] all the same, so it has not verified that the record
    names another connection. *)
Lemma abort_wake_skips_record_check :
  run abort_taken boot = Some (after abort_taken)
  ∧ pool (after abort_taken) !! 0%nat = Some (ListenAfterRecv T0 1 "ABORT")
  ∧ globalClientToConnection (lp (after abort_taken)) !! T0 = Some 1
  ∧ ¬ wake_verifies_record (lp (after abort_taken)) T0 1.
Proof.
  split; [by vm_compute|]. split; [by vm_compute|].
  assert (Hrec : globalClientToConnection (lp (after abort_taken)) !! T0
                 = Some 1) by by vm_compute.
  split; [exact Hrec|].
  intros Hcheck. apply Hcheck; [reflexivity | exact Hrec].
Qed.

(** C4: the code at a failing input.  One subscriber listens with nothing
    buffered and its call times out.  The call has answered 408 and no
    listen call is blocked any more, yet the pending flag of the token is
    still set. *)
Theorem timeout_leaves_pending_flag :
  run timed_out boot = Some (after timed_out)
  ∧ replies (after timed_out)
    = [SubscriptionResponse T0 ["f1"]; ErrorResponse 408 "Request timeout"]
  ∧ status_of (ErrorResponse 408 "Request timeout") = Some TimedOut
  ∧ pool (after timed_out) = [Exited; Exited]
  ∧ ¬ listen_blocked (after timed_out) T0
  ∧ globalClients (lp (after timed_out)) !! T0 = Some true.
Proof.
  split; [by vm_compute|]. split; [by vm_compute|]. split; [done|].
  assert (Hpool : pool (after timed_out) = [Exited; Exited])
    by by vm_compute.
  split; [exact Hpool|]. split; [|by vm_compute].
  intros (cur & c & Hin). rewrite Hpool in Hin.
  apply elem_of_cons in Hin as [Hin|Hin]; [discriminate Hin|].
  apply elem_of_cons in Hin as [Hin|Hin]; [discriminate Hin|].
  by apply elem_of_nil in Hin.
Qed.

(** * Further properties of the code *)

(** ** Subscription *)

Lemma first_unavailable_None (m : feedToClients) (feeds : list string) :
  first_unavailable m feeds = None
  ↔ Forall (λ f, is_Some (m !! f)) feeds.
Proof.
  induction feeds as [|f fs IH]; simpl.
  - split; [constructor | done].
  - destruct (m !! f) as [clients|] eqn:Hf.
    + rewrite IH. split.
      * intros Hall. constructor; [by rewrite Hf | done].
      * by intros [_ Hall]%Forall_cons.
    + split; [done|]. intros [[? Hs] _]%Forall_cons. congruence.
Qed.

(** With every requested feed in the directory, the subscription loop runs
    to its end and adds the token to the subscriber set of exactly the
    requested feeds. *)
Lemma subscribe_all_registered (token : string) (feeds : list string)
    (m : feedToClients) :
  Forall (λ f, is_Some (m !! f)) feeds →
  (subscribe_all token feeds m).2 = true
  ∧ ∀ f, (subscribe_all token feeds m).1 !! f
         = (λ clients,
              if decide (f ∈ feeds) then <[token := true]> clients
              else clients) <$> m !! f.
Proof.
  revert m. induction feeds as [|feed rest IH]; intros m Hall;
    cbn [subscribe_all fst snd].
  - split; [done|]. intros f. destruct (m !! f) as [clients|]; [|done].
    cbn [fmap option_fmap option_map].
    rewrite decide_False; [done | apply not_elem_of_nil].
  - apply Forall_cons in Hall as [[cs Hcs] Hrest]. rewrite Hcs.
    destruct (IH (<[feed := <[token := true]> cs]> m)) as [Hok Hm].
    { eapply Forall_impl; [exact Hrest|]. intros f.
      apply is_Some_insert_mono. }
    split; [exact Hok|]. intros f. rewrite Hm, lookup_insert.
    destruct (decide (feed = f)) as [->|Hne].
    + rewrite Hcs. cbn [fmap option_fmap option_map].
      rewrite (decide_True (P := f ∈ f :: rest)) by apply list_elem_of_here.
      destruct (decide (f ∈ rest)); [by rewrite insert_insert_eq | done].
    + destruct (m !! f) as [clients|]; [|done].
      cbn [fmap option_fmap option_map].
      destruct (decide (f ∈ rest)) as [Hin|Hout].
      * rewrite decide_True; [done | by apply list_elem_of_further].
      * rewrite decide_False; [done|].
        intros [?|?]%elem_of_cons; by simplify_eq.
Qed.

(** What a subscription does when every requested feed is registered. *)
Lemma subscribe_with_registered_feeds (token : string) (feeds : list string)
    (lp0 : LongPoll) :
  Forall (λ f, is_Some (globalFeedToClients lp0 !! f)) feeds →
  let lp' :=
    set_globalFeedToClients
      (subscribe_all token feeds (globalFeedToClients lp0)).1
      (set_globalClients (<[token := false]> (globalClients lp0)) lp0) in
  subscribe_with token feeds lp0 = (SubscriptionResponse token feeds, lp')
  ∧ (∀ t f, subscribed lp' t f
            ↔ subscribed lp0 t f ∨ (t = token ∧ f ∈ feeds)).
Proof.
  intros Hall lp'. subst lp'. unfold subscribe_with. simpl.
  rewrite (proj2 (first_unavailable_None _ _) Hall).
  destruct (subscribe_all_registered token feeds _ Hall) as [Hok Hm].
  destruct (subscribe_all token feeds (globalFeedToClients lp0))
    as [m completed]. simpl in Hok, Hm. subst completed.
  split; [reflexivity|]. simpl.
  intros t f. unfold subscribed. simpl. rewrite Hm. split.
  - intros (clients' & Hf & Ht).
    destruct (globalFeedToClients lp0 !! f) as [clients|] eqn:Hlook;
      [|done]. simpl in Hf. injection Hf as <-.
    destruct (decide (f ∈ feeds)) as [Hin|Hout].
    + rewrite lookup_insert in Ht.
      destruct (decide (token = t)) as [<-|Hne]; [by right|].
      left. by exists clients.
    + left. by exists clients.
  - intros [(clients & Hf & Ht)|[-> Hin]].
    + rewrite Hf. simpl. eexists. split; [reflexivity|].
      destruct (decide (f ∈ feeds)); [by apply is_Some_insert_mono | done].
    + rewrite Forall_forall in Hall. destruct (Hall f Hin) as [clients Hf].
      rewrite Hf. simpl. eexists. split; [reflexivity|].
      rewrite decide_True by done. rewrite lookup_insert_eq. by eexists.
Qed.

(** X1: when every requested feed is registered, the subscription succeeds:
    the reply carries the token and the requested feeds, the token is
    entered in the Token Registry as not pending, and afterwards a token is
    subscribed to a feed exactly when it was before or it is the new token
    and the feed was requested.  Nothing else changes. *)
Theorem subscribe_with_success (token : string) (feeds : list string)
    (lp0 : LongPoll) :
  Forall (λ f, is_Some (globalFeedToClients lp0 !! f)) feeds →
  ∃ lp',
    subscribe_with token feeds lp0 = (SubscriptionResponse token feeds, lp')
    ∧ globalClients lp' = <[token := false]> (globalClients lp0)
    ∧ (∀ t f, subscribed lp' t f
              ↔ subscribed lp0 t f ∨ (t = token ∧ f ∈ feeds))
    ∧ dom (globalFeedToClients lp') = dom (globalFeedToClients lp0)
    ∧ globalEvents lp' = globalEvents lp0
    ∧ globalClientToNewEvents lp' = globalClientToNewEvents lp0
    ∧ globalClientToConnection lp' = globalClientToConnection lp0.
Proof.
  intros Hall.
  destruct (subscribe_with_registered_feeds token feeds lp0 Hall)
    as [Hreply Hsub].
  destruct (subscribe_all_registered token feeds _ Hall) as [_ Hm].
  eexists. split; [exact Hreply|]. split; [done|]. split; [exact Hsub|].
  split; [|done].
  apply set_eq. intros f. cbn [globalFeedToClients set_globalFeedToClients].
  rewrite !elem_of_dom, Hm. by rewrite fmap_is_Some.
Qed.

Lemma subscribe_with_success_witness :
  ∃ lp',
    subscribe_with T0 ["f1"] (lp boot) = (SubscriptionResponse T0 ["f1"], lp')
    ∧ globalClients lp' = <[T0 := false]> (globalClients (lp boot))
    ∧ (∀ t f, subscribed lp' t f
              ↔ subscribed (lp boot) t f ∨ (t = T0 ∧ f ∈ ["f1"])).
Proof.
  destruct (subscribe_with_success T0 ["f1"] (lp boot))
    as (lp' & H1 & H2 & H3 & _).
  - constructor; [|constructor]. vm_compute. eexists. reflexivity.
  - exists lp'. split; [exact H1|]. split; [exact H2 | exact H3].
Defined.

Lemma first_unavailable_Exists (m : feedToClients) (feeds : list string) :
  Exists (λ f, m !! f = None) feeds →
  ∃ feed, first_unavailable m feeds = Some feed.
Proof.
  intros Hex. destruct (first_unavailable m feeds) as [feed|] eqn:Hfirst;
    [by exists feed|].
  apply first_unavailable_None in Hfirst. rewrite Forall_forall in Hfirst.
  apply Exists_exists in Hex as (f & Hin & Hnone).
  destruct (Hfirst f Hin) as [? ?]. congruence.
Qed.

(** X2: when some requested feed is not registered, the subscription is
    refused with the 500 reply that names the first such feed in the order
    of the request; the Feed Directory keeps every subscriber set, and the
    one change to the state is the entry of the token in the Token
    Registry, as not pending. *)
Theorem subscribe_with_refused (token : string) (feeds : list string)
    (lp0 : LongPoll) :
  Exists (λ f, globalFeedToClients lp0 !! f = None) feeds →
  ∃ before feed rest,
    feeds = (before ++ feed :: rest)%list
    ∧ Forall (λ f, is_Some (globalFeedToClients lp0 !! f)) before
    ∧ globalFeedToClients lp0 !! feed = None
    ∧ subscribe_with token feeds lp0
      = (ErrorResponse 500 ("Feed " ++ feed ++ " is not available"),
         set_globalClients (<[token := false]> (globalClients lp0)) lp0).
Proof.
  intros Hex. destruct (first_unavailable_Exists _ _ Hex) as [feed Hfirst].
  destruct (first_unavailable_unregistered _ _ _ Hfirst)
    as (before & rest & Hfeeds & Hnone & Hall).
  exists before, feed, rest. repeat split; try done.
  by apply subscribe_with_unavailable.
Qed.

Lemma subscribe_with_refused_witness :
  ∃ before feed rest,
    ["f1"; "nope"; "f1"; "also"] = (before ++ feed :: rest)%list
    ∧ Forall (λ f, is_Some (globalFeedToClients (lp boot) !! f)) before
    ∧ globalFeedToClients (lp boot) !! feed = None
    ∧ subscribe_with T0 ["f1"; "nope"; "f1"; "also"] (lp boot)
      = (ErrorResponse 500 ("Feed " ++ feed ++ " is not available"),
         set_globalClients (<[T0 := false]> (globalClients (lp boot)))
           (lp boot)).
Proof.
  apply (subscribe_with_refused T0 ["f1"; "nope"; "f1"; "also"] (lp boot)).
  apply Exists_cons_tl, Exists_cons_hd. vm_compute. reflexivity.
Defined.

(** ** Invariants of the scheduler *)

Section invariants.
Context {R : Type} `{!RandSource R}.

(** A property of the state that every piece of every handler keeps is
    kept by every step of the scheduler, hence along every run. *)
Lemma exec_preserves (P : LongPoll → Prop) :
  (∀ feeds (r : R) lp0, P lp0 → P (SubscribeHandler feeds r lp0).2) →
  (∀ tokens c lp0, P lp0 → P (ListenHandler_start tokens c lp0).2) →
  (∀ token cur c lp0, P lp0 → P (ListenHandler_register token cur c lp0).2) →
  (∀ token operation lp0,
     P lp0 → P (ListenHandler_wake token operation lp0).2) →
  (∀ feed obj now lp0, P lp0 → P (NewEvent feed obj now lp0).1.2) →
  (∀ client lp0, P lp0 → P (notifyEvent_finish client lp0)) →
  ∀ a (s s' : system R), P (lp s) → exec a s = Some s' → P (lp s').
Proof.
  intros Hsub Hstart Hreg Hwake Hnew Hfin a s s' HP.
  destruct a as [feeds|tokens|feed obj now|i|i j]; unfold exec.
  - specialize (Hsub feeds (rng s) (lp s) HP).
    destruct (SubscribeHandler feeds (rng s) (lp s)) as [[resp r'] lp'].
    by intros [= <-].
  - specialize (Hstart tokens (chans s) (lp s) HP).
    destruct (ListenHandler_start tokens (chans s) (lp s)) as [l lp'].
    intros [= <-]. by rewrite settle_listen_lp.
  - specialize (Hnew feed obj now (lp s) HP).
    destruct (NewEvent feed obj now (lp s)) as [[err lp'] clients].
    by intros [= <-].
  - destruct (pool s !! i) as [[]|]; try done.
    + specialize (Hreg token currentConnection (chans s) (lp s) HP).
      destruct (ListenHandler_register _ _ _ _) as [l lp'].
      intros [= <-]. by rewrite settle_listen_lp.
    + specialize (Hwake token operation (lp s) HP).
      destruct (ListenHandler_wake _ _ _) as [resp lp'].
      by intros [= <-].
    + by intros [= <-].
    + intros [= <-]. by apply Hfin.
  - destruct (pool s !! i ≫= offered_send) as [[[c op] g]|]; [|done].
    destruct (pool s !! j) as [[]|]; try done.
    case_decide; [|done]. by intros [= <-].
Qed.

Lemma run_preserves (P : LongPoll → Prop) :
  (∀ a (s s' : system R), P (lp s) → exec a s = Some s' → P (lp s')) →
  ∀ acts (s s' : system R), P (lp s) → run acts s = Some s' → P (lp s').
Proof.
  intros Hexec acts. induction acts as [|a rest IH]; intros s s' HP; simpl.
  - by intros [= <-].
  - destruct (exec a s) as [s1|] eqn:Ha; [|done].
    apply IH. by apply (Hexec a s).
Qed.

(** *** Tokens never leave the Token Registry *)

Lemma registered_stays (t : string) (a : action) (s s' : system R) :
  is_Some (globalClients (lp s) !! t) → exec a s = Some s' →
  is_Some (globalClients (lp s') !! t).
Proof.
  apply (exec_preserves (λ l, is_Some (globalClients l !! t))).
  - intros feeds r lp0 Ht. unfold SubscribeHandler.
    destruct feeds as [feeds|]; [|done].
    destruct (GetNewToken 32 r) as [[token r']|]; [|done].
    assert (is_Some (globalClients (subscribe_with token feeds lp0).2 !! t)).
    { unfold subscribe_with.
      repeat case_match; simpl; by apply is_Some_insert_mono. }
    by destruct (subscribe_with token feeds lp0).
  - intros tokens c lp0 Ht. unfold ListenHandler_start.
    repeat case_match; try done.
    unfold ListenHandler_register, ListenHandler_fetch.
    destruct (_ =? _); simpl; [by apply is_Some_insert_mono | done].
  - intros token cur c lp0 Ht.
    unfold ListenHandler_register, ListenHandler_fetch.
    destruct (_ =? _); simpl; [by apply is_Some_insert_mono | done].
  - intros token operation lp0 Ht. unfold ListenHandler_wake.
    by repeat case_match.
  - done.
  - intros client lp0 Ht. by apply is_Some_insert_mono.
Qed.

(** *** Recorded connections have their channel *)





End invariants.

(** ** Facts about the scenarios *)

Lemma one_subscriber_lookup (t : string) :
  subscribed one_subscriber t "f1"
  ↔ (globalFeedToClients one_subscriber !! "f1" ≫= (.!! t)) ≠ None.
Proof.
  unfold subscribed.
  destruct (globalFeedToClients one_subscriber !! "f1") as [clients|];
    cbn [mbind option_bind].
  - split.
    + intros (? & [= <-] & [b Hb]). congruence.
    + intros Hne. exists clients. split; [done|].
      by apply not_eq_None_Some.
  - split; [by intros (? & ? & ?) | done].
Qed.

Lemma one_subscriber_subscribed : subscribed one_subscriber T0 "f1".
Proof.
  apply one_subscriber_lookup.
  assert ((globalFeedToClients one_subscriber !! "f1" ≫= (.!! T0))
          = Some true) as -> by (vm_compute; reflexivity).
  discriminate.
Qed.

Lemma one_subscriber_other : ¬ subscribed one_subscriber "other" "f1".
Proof.
  rewrite one_subscriber_lookup.
  assert ((globalFeedToClients one_subscriber !! "f1" ≫= (.!! "other"))
          = None) as -> by (vm_compute; reflexivity).
  by intros H.
Qed.

(** ** How the pieces of a listen call compose *)

Lemma register_blocks (token : string) (cur : Z) (c : nat)
    (lp0 : LongPoll) :
  pending_events lp0 token = [] →
  ListenHandler_register token cur c lp0
  = (Receiving token cur c,
     set_globalClients (<[token := true]> (globalClients lp0))
       (set_globalConnectionChannel
          (<[cur := c]> (globalConnectionChannel lp0))
          (set_globalClientToConnection
             (<[token := cur]> (globalClientToConnection lp0)) lp0))).
Proof.
  intros Hempty. unfold ListenHandler_register.
  change (pending_events (set_globalConnectionChannel _ _) token)
    with (pending_events lp0 token).
  by rewrite Hempty.
Qed.

(** X5: the timeout round trip.  A listen call woken by ["TIMEOUT"]
    answers 408 and takes the token off the active-connection record,
    leaving the buffers and the other tokens' records alone; the next
    listen call of the token, with nothing buffered, therefore sends no
    ["ABORT"] and blocks on a channel of its own under the next
    connection id. *)
Theorem listen_after_timeout (lp0 : LongPoll) (token : string)
    (rest : list string) (fresh : nat) :
  is_Some (globalClients lp0 !! token) →
  pending_events lp0 token = [] →
  let woken := ListenHandler_wake token "TIMEOUT" lp0 in
  let next := ListenHandler_start (Some (token :: rest)) fresh woken.2 in
  let cur := int_of (globalLastConnection lp0 + 1) in
  woken.1 = ErrorResponse 408 "Request timeout"
  ∧ globalClientToConnection woken.2 !! token = None
  ∧ (∀ t, t ≠ token →
       globalClientToConnection woken.2 !! t
       = globalClientToConnection lp0 !! t)
  ∧ globalClientToNewEvents woken.2 = globalClientToNewEvents lp0
  ∧ next.1 = Receiving token cur fresh
  ∧ globalClientToConnection next.2 !! token = Some cur
  ∧ globalConnectionChannel next.2 !! cur = Some fresh
  ∧ globalClients next.2 !! token = Some true.
Proof.
  intros [b Hb] Hempty woken next cur.
  split; [done|]. split; [apply lookup_delete_eq|].
  split; [intros t Ht; by apply lookup_delete_ne|]. split; [done|].
  assert (Hnext : next
    = ListenHandler_register token cur fresh
        (set_globalLastConnection cur woken.2)).
  { unfold next, ListenHandler_start. simpl. rewrite Hb.
    by rewrite lookup_delete_eq. }
  rewrite Hnext, register_blocks by done. simpl.
  by rewrite !lookup_insert_eq.
Qed.

Lemma listen_after_timeout_witness :
  (ListenHandler_start (Some [T0]) 7%nat
     (ListenHandler_wake T0 "TIMEOUT" one_subscriber).2).1
  = Receiving T0 (int_of (globalLastConnection one_subscriber + 1)) 7%nat.
Proof.
  destruct (listen_after_timeout one_subscriber T0 [] 7%nat)
    as (_ & _ & _ & _ & Hnext & _).
  - vm_compute. eexists. reflexivity.
  - vm_compute. reflexivity.
  - exact Hnext.
Defined.

(** X6: a delivering call drains the buffer of its own token only, and
    only once: it replies with one log entry per pending id, a second
    fetch right after it replies with no event, and the buffers and
    recorded connections of the other tokens, the Event Log and the Token
    Registry are as before. *)
Theorem fetch_drains_own_buffer_once (token : string) (lp0 : LongPoll) :
  let first := ListenHandler_fetch token lp0 in
  first.1 = EventResponse (log_entries lp0 (pending_events lp0 token))
  ∧ length (log_entries lp0 (pending_events lp0 token))
    = length (pending_events lp0 token)
  ∧ (ListenHandler_fetch token first.2).1 = EventResponse []
  ∧ (∀ t, t ≠ token →
       pending_events first.2 t = pending_events lp0 t
       ∧ globalClientToConnection first.2 !! t
         = globalClientToConnection lp0 !! t)
  ∧ globalEvents first.2 = globalEvents lp0
  ∧ globalClients first.2 = globalClients lp0.
Proof.
  intros first. split; [done|].
  split; [unfold log_entries; by rewrite length_fmap|]. split.
  - rewrite fetch_reply. unfold first. rewrite fetch_pending.
    by rewrite decide_True.
  - split; [|done]. intros t Ht. split.
    + unfold first. rewrite fetch_pending. by rewrite decide_False.
    + simpl. by rewrite lookup_delete_ne.
Qed.

(** X7: publish, then listen.  For a registered token that has no listen
    call in flight and nothing buffered, an event published to one of its
    feeds is buffered, its notifier returns without sending anything, and
    the next listen call replies at once with exactly that event and
    leaves the buffer empty and no connection on record. *)
Theorem publish_then_listen (lp0 : LongPoll) (token feed : string)
    (obj : object) (now : Z) (rest : list string) (fresh : nat) :
  is_Some (globalClients lp0 !! token) →
  globalClientToConnection lp0 !! token = None →
  pending_events lp0 token = [] →
  subscribed lp0 token feed →
  let published := NewEvent feed obj now lp0 in
  let heard :=
    ListenHandler_start (Some (token :: rest)) fresh published.1.2 in
  token ∈ published.2
  ∧ notifyEvent_start token published.1.2 = NotifyReturned
  ∧ heard.1
    = Replied
        (EventResponse
           [{| Data := obj; Feed := feed; Timestamp := int32_of now |}])
  ∧ pending_events heard.2 token = []
  ∧ globalClientToConnection heard.2 !! token = None.
Proof.
  intros [b Hb] Hnone Hempty Hsub published heard.
  destruct (NewEvent_pending feed obj now lp0 token) as [Hyes _].
  specialize (Hyes Hsub). rewrite Hempty, app_nil_l in Hyes.
  assert (Hin : token ∈ published.2).
  { unfold published, NewEvent. cbn [snd]. apply elem_of_range_keys.
    apply not_eq_None_Some. rewrite <- not_elem_of_list_to_map.
    rewrite <- list_fmap_compose.
    intros Hout. apply Hout. apply list_elem_of_fmap.
    exists token. split; [done|]. apply elem_of_range_keys.
    destruct Hsub as (clients & Hf & Ht).
    unfold set_globalEvents. cbn [globalFeedToClients]. by rewrite Hf. }
  assert (Hlog : globalEvents published.1.2
                 !! Z.of_nat (size (globalEvents lp0))
                 = Some {| Data := obj; Feed := feed;
                           Timestamp := int32_of now |}).
  { unfold published. rewrite NewEvent_log. apply lookup_insert_eq. }
  assert (Hconn : globalClientToConnection published.1.2
                  = globalClientToConnection lp0) by done.
  assert (Hreg : globalClients published.1.2 = globalClients lp0) by done.
  subst heard. fold published in Hyes.
  generalize dependent published.1.2. intros lp1 Hyes Hlog Hconn Hreg.
  split; [exact Hin|]. split.
  { unfold notifyEvent_start. rewrite Hconn, Hnone.
    by destruct (default false _). }
  unfold ListenHandler_start. rewrite Hreg, Hb. cbn [globalClientToConnection
    set_globalLastConnection globalLastConnection]. rewrite Hconn, Hnone.
  unfold ListenHandler_register.
  change (pending_events (set_globalConnectionChannel _ _) token)
    with (pending_events lp1 token).
  rewrite Hyes. cbn [length Z.of_nat Z.eqb Pos.of_succ_nat].
  unfold ListenHandler_fetch.
  change (pending_events (set_globalConnectionChannel _ _) token)
    with (pending_events lp1 token).
  rewrite Hyes. cbn [fst snd]. split; [|split].
  - do 2 f_equal. cbn [fmap list_fmap]. f_equal.
    change (globalEvents (set_globalConnectionChannel _ _))
      with (globalEvents lp1). by rewrite Hlog.
  - unfold pending_events. simpl. by rewrite lookup_insert_eq.
  - simpl. by rewrite lookup_delete_eq.
Qed.

Lemma publish_then_listen_witness :
  (ListenHandler_start (Some [T0]) 0%nat
     (NewEvent "f1" (Some "P1") 100 one_subscriber).1.2).1
  = Replied
      (EventResponse
         [{| Data := Some "P1"; Feed := "f1"; Timestamp := int32_of 100 |}]).
Proof.
  destruct (publish_then_listen one_subscriber T0 "f1" (Some "P1") 100
              [] 0%nat) as (_ & _ & Hheard & _).
  - vm_compute. eexists. reflexivity.
  - vm_compute. reflexivity.
  - vm_compute. reflexivity.
  - exact one_subscriber_subscribed.
  - exact Hheard.
Defined.

Lemma NewEvent_notified (feed : string) (obj : object) (now : Z)
    (lp0 : LongPoll) :
  NoDup (NewEvent feed obj now lp0).2
  ∧ ∀ t, t ∈ (NewEvent feed obj now lp0).2 ↔ subscribed lp0 t feed.
Proof.
  unfold NewEvent. cbn [snd]. split; [apply NoDup_fst_map_to_list|].
  intros t. rewrite elem_of_range_keys.
  rewrite <- not_eq_None_Some, <- not_elem_of_list_to_map.
  rewrite <- list_fmap_compose.
  assert (Hkeys : ∀ l : list string,
            (fst ∘ (λ client : string, (client, true))) <$> l = l).
  { intros l. induction l as [|x l IH]; [done|]. by rewrite fmap_cons, IH. }
  rewrite Hkeys, elem_of_range_keys.
  unfold set_globalEvents, subscribed. cbn [globalFeedToClients].
  destruct (globalFeedToClients lp0 !! feed) as [clients|]; simpl.
  - split.
    + intros Hnn. destruct (clients !! t) as [b|] eqn:Ht.
      * exists clients. split; [done | by exists b].
      * exfalso. apply Hnn. by intros [? ?].
    + intros (? & [= <-] & Hs) Hnot. by apply Hnot.
  - rewrite lookup_empty. split.
    + intros Hnn. exfalso. apply Hnn. by intros [? ?].
    + by intros (? & ? & ?).
Qed.

(** X8: a blocked listen call is woken by a publish.  A listen call that
    registers with nothing buffered blocks on its channel; an event then
    published to a feed of its token is buffered, and the notifier of the
    token offers ["DONE"] on exactly that channel; woken by it, the call
    replies with exactly the published event, empties the buffer and takes
    its connection off the record, and the notifier, done, resets the
    pending flag. *)
Theorem blocked_listen_woken_by_publish (lp0 : LongPoll)
    (token feed : string) (obj : object) (now : Z) (cur : Z) (c : nat) :
  pending_events lp0 token = [] →
  subscribed lp0 token feed →
  let waiting := ListenHandler_register token cur c lp0 in
  let published := NewEvent feed obj now waiting.2 in
  let woken := ListenHandler_wake token "DONE" published.1.2 in
  waiting.1 = Receiving token cur c
  ∧ token ∈ published.2
  ∧ notifyEvent_start token published.1.2 = SendingDone token (Some c)
  ∧ offered_send (NotifyAtSend token (Some c))
    = Some (c, "DONE", NotifyAfterSend token)
  ∧ woken.1
    = EventResponse
        [{| Data := obj; Feed := feed; Timestamp := int32_of now |}]
  ∧ pending_events woken.2 token = []
  ∧ globalClientToConnection woken.2 !! token = None
  ∧ globalClients (notifyEvent_finish token woken.2) !! token = Some false.
Proof.
  intros Hempty Hsub waiting published woken.
  subst woken published waiting. rewrite register_blocks by done.
  cbn [fst snd].
  set (lpw := set_globalClients _ _).
  assert (Hsubw : subscribed lpw token feed) by done.
  assert (Hemptyw : pending_events lpw token = []) by done.
  destruct (NewEvent_pending feed obj now lpw token) as [Hyes _].
  specialize (Hyes Hsubw). rewrite Hemptyw, app_nil_l in Hyes.
  pose proof (proj2 (proj2 (NewEvent_notified feed obj now lpw) token) Hsubw)
    as Hin.
  assert (Hlog : globalEvents (NewEvent feed obj now lpw).1.2
                 !! Z.of_nat (size (globalEvents lpw))
                 = Some {| Data := obj; Feed := feed;
                           Timestamp := int32_of now |}).
  { rewrite NewEvent_log. apply lookup_insert_eq. }
  assert (Hflag : globalClients (NewEvent feed obj now lpw).1.2 !! token
                  = Some true) by apply lookup_insert_eq.
  assert (Hconn : globalClientToConnection (NewEvent feed obj now lpw).1.2
                  !! token = Some cur) by apply lookup_insert_eq.
  assert (Hchan : globalConnectionChannel (NewEvent feed obj now lpw).1.2
                  !! cur = Some c) by apply lookup_insert_eq.
  generalize dependent (NewEvent feed obj now lpw).1.2.
  intros lp1 Hyes Hlog Hflag Hconn Hchan.
  split; [done|]. split; [exact Hin|]. split.
  { unfold notifyEvent_start. by rewrite Hflag, Hconn, Hchan. }
  split; [done|].
  unfold ListenHandler_wake, ListenHandler_fetch. cbn [String.eqb fst snd].
  cbn [Ascii.eqb Bool.eqb fst snd].
  split; [|split; [|split]].
  - unfold log_entries. rewrite Hyes. cbn [fmap list_fmap].
    by rewrite Hlog.
  - unfold pending_events. simpl. by rewrite lookup_insert_eq.
  - simpl. by rewrite lookup_delete_eq.
  - apply lookup_insert_eq.
Qed.

Lemma blocked_listen_woken_by_publish_witness :
  (ListenHandler_wake T0 "DONE"
     (NewEvent "f1" (Some "P2") 100
        (ListenHandler_register T0 1 0%nat one_subscriber).2).1.2).1
  = EventResponse
      [{| Data := Some "P2"; Feed := "f1"; Timestamp := int32_of 100 |}].
Proof.
  destruct (blocked_listen_woken_by_publish one_subscriber T0 "f1"
              (Some "P2") 100 1 0%nat) as (_ & _ & _ & _ & Hwoken & _).
  - vm_compute. reflexivity.
  - exact one_subscriber_subscribed.
  - exact Hwoken.
Defined.

(** X9: a second listen call supersedes the first.  While a listen call
    of a token is blocked on its channel, the next listen call of the
    token offers ["ABORT"] on exactly that channel before it touches the
    record; woken by it, the first call answers 204 and changes nothing;
    the second call then registers under the next connection id with a
    channel of its own and blocks in its turn. *)
Theorem second_listen_aborts_first (lp0 : LongPoll) (token : string)
    (cur : Z) (c : nat) (rest : list string) (fresh : nat) :
  pending_events lp0 token = [] →
  let first := ListenHandler_register token cur c lp0 in
  let second := ListenHandler_start (Some (token :: rest)) fresh first.2 in
  let cur' := int_of (globalLastConnection lp0 + 1) in
  let aborted := ListenHandler_wake token "ABORT" second.2 in
  let third := ListenHandler_register token cur' fresh aborted.2 in
  first.1 = Receiving token cur c
  ∧ second.1 = SendingAbort token cur' (Some c)
  ∧ globalClientToConnection second.2 !! token = Some cur
  ∧ offered_send (ListenAtSend token cur' (Some c))
    = Some (c, "ABORT", ListenAfterSend token cur')
  ∧ aborted = (ErrorResponse 204 "Connection aborted", second.2)
  ∧ third.1 = Receiving token cur' fresh
  ∧ globalClientToConnection third.2 !! token = Some cur'
  ∧ globalConnectionChannel third.2 !! cur' = Some fresh.
Proof.
  intros Hempty first second cur' aborted third.
  subst third aborted second first. rewrite register_blocks by done.
  cbn [fst snd]. split; [done|].
  unfold ListenHandler_start.
  cbn [globalClients set_globalClients]. rewrite lookup_insert_eq.
  cbn [globalClientToConnection set_globalLastConnection set_globalClients
       set_globalConnectionChannel set_globalClientToConnection
       globalLastConnection globalConnectionChannel].
  rewrite !lookup_insert_eq. cbn [fst snd].
  split; [done|]. split; [apply lookup_insert_eq|]. split; [done|].
  split; [done|].
  rewrite register_blocks by done. cbn [fst snd].
  split; [done|]. split; apply lookup_insert_eq.
Qed.

Lemma second_listen_aborts_first_witness :
  (ListenHandler_start (Some [T0]) 1%nat
     (ListenHandler_register T0 1 0%nat one_subscriber).2).1
  = SendingAbort T0 (int_of (globalLastConnection one_subscriber + 1))
      (Some 0%nat).
Proof.
  destruct (second_listen_aborts_first one_subscriber T0 1 0%nat [] 1%nat)
    as (_ & Hsecond & _).
  - vm_compute. reflexivity.
  - exact Hsecond.
Defined.

(** ** Publishing *)

(** X10: the fan-out of a publish.  [NewEvent] appends the new id, once,
    at the end of the pending list of every subscriber of the feed and
    leaves every other pending list as it was; it starts one notifier for
    each subscriber of the feed and for no one else; and it changes
    neither the Token Registry, nor the Feed Directory, nor any
    connection. *)
Theorem NewEvent_fan_out (feed : string) (obj : object) (now : Z)
    (lp0 : LongPoll) :
  let newIndex := Z.of_nat (size (globalEvents lp0)) in
  let result := NewEvent feed obj now lp0 in
  (∀ t, subscribed lp0 t feed →
        pending_events result.1.2 t
        = (pending_events lp0 t ++ [newIndex])%list)
  ∧ (∀ t, ¬ subscribed lp0 t feed →
          pending_events result.1.2 t = pending_events lp0 t)
  ∧ NoDup result.2
  ∧ (∀ t, t ∈ result.2 ↔ subscribed lp0 t feed)
  ∧ globalClients result.1.2 = globalClients lp0
  ∧ globalFeedToClients result.1.2 = globalFeedToClients lp0
  ∧ globalClientToConnection result.1.2 = globalClientToConnection lp0
  ∧ globalConnectionChannel result.1.2 = globalConnectionChannel lp0.
Proof.
  intros newIndex result.
  split; [intros t; apply (NewEvent_pending feed obj now lp0 t)|].
  split; [intros t; apply (NewEvent_pending feed obj now lp0 t)|].
  split; [apply NewEvent_notified|].
  split; [apply NewEvent_notified | done].
Qed.

Lemma NewEvent_fan_out_witness :
  pending_events (NewEvent "f1" (Some "P1") 100 one_subscriber).1.2 T0
  = (pending_events one_subscriber T0
       ++ [Z.of_nat (size (globalEvents one_subscriber))])%list
  ∧ pending_events (NewEvent "f1" (Some "P1") 100 one_subscriber).1.2 "other"
    = pending_events one_subscriber "other".
Proof.
  destruct (NewEvent_fan_out "f1" (Some "P1") 100 one_subscriber)
    as (Hyes & Hno & _).
  split.
  - apply Hyes. exact one_subscriber_subscribed.
  - apply Hno. exact one_subscriber_other.
Defined.

Lemma NewEvent_dense (feed : string) (obj : object) (now : Z)
    (lp0 : LongPoll) :
  log_dense lp0 →
  log_dense (NewEvent feed obj now lp0).1.2
  ∧ size (globalEvents (NewEvent feed obj now lp0).1.2)
    = S (size (globalEvents lp0)).
Proof.
  intros Hd. pose proof (log_dense_fresh lp0 Hd) as Hfresh.
  rewrite NewEvent_log.
  assert (Hsize : size (<[Z.of_nat (size (globalEvents lp0)) :=
                    {| Data := obj; Feed := feed;
                       Timestamp := int32_of now |}]> (globalEvents lp0))
                  = S (size (globalEvents lp0)))
    by by apply map_size_insert_None.
  split; [|exact Hsize].
  intros k. rewrite NewEvent_log, Hsize, lookup_insert.
  destruct (decide (Z.of_nat (size (globalEvents lp0)) = k)) as [<-|Hne].
  - split; [lia | by eexists].
  - rewrite (Hd k). lia.
Qed.

(** X11: event ids follow publish order.  In a log that holds exactly the
    ids [0 .. len-1], two publishes in a row store their events under
    [len] and [len + 1]: no id is used twice, no earlier entry of the log
    is changed, and the log again holds exactly the ids below its
    length. *)
Theorem NewEvent_ids_consecutive (feed1 feed2 : string)
    (obj1 obj2 : object) (now1 now2 : Z) (lp0 : LongPoll) :
  log_dense lp0 →
  let n := Z.of_nat (size (globalEvents lp0)) in
  let lp1 := (NewEvent feed1 obj1 now1 lp0).1.2 in
  let lp2 := (NewEvent feed2 obj2 now2 lp1).1.2 in
  globalEvents lp0 !! n = None
  ∧ globalEvents lp2 !! n
    = Some {| Data := obj1; Feed := feed1; Timestamp := int32_of now1 |}
  ∧ globalEvents lp2 !! (n + 1)
    = Some {| Data := obj2; Feed := feed2; Timestamp := int32_of now2 |}
  ∧ globalEvents lp0 ⊆ globalEvents lp2
  ∧ size (globalEvents lp2) = S (S (size (globalEvents lp0)))
  ∧ log_dense lp2.
Proof.
  intros Hd n lp1 lp2.
  destruct (NewEvent_dense feed1 obj1 now1 lp0 Hd) as [Hd1 Hsize1].
  destruct (NewEvent_dense feed2 obj2 now2 lp1 Hd1) as [Hd2 Hsize2].
  fold lp1 in Hd1, Hsize1. fold lp2 in Hd2, Hsize2.
  pose proof (log_dense_fresh lp0 Hd) as Hfresh0.
  pose proof (log_dense_fresh lp1 Hd1) as Hfresh1.
  assert (Hlog1 : globalEvents lp1
                  = <[n := {| Data := obj1; Feed := feed1;
                              Timestamp := int32_of now1 |}]>
                      (globalEvents lp0)) by apply NewEvent_log.
  assert (Hlog2 : globalEvents lp2
                  = <[n + 1 := {| Data := obj2; Feed := feed2;
                                  Timestamp := int32_of now2 |}]>
                      (globalEvents lp1)).
  { unfold lp2. rewrite NewEvent_log. fold lp1. rewrite Hsize1.
    f_equal. unfold n. lia. }
  split; [exact Hfresh0|]. split.
  { rewrite Hlog2, lookup_insert_ne by lia.
    rewrite Hlog1. apply lookup_insert_eq. }
  split; [rewrite Hlog2; apply lookup_insert_eq|]. split.
  { rewrite Hlog2, Hlog1. etrans; [by apply insert_subseteq|].
    apply insert_subseteq. rewrite <- Hlog1.
    replace (n + 1) with (Z.of_nat (size (globalEvents lp1)));
      [exact Hfresh1|]. rewrite Hsize1. unfold n. lia. }
  split; [by rewrite Hsize2, Hsize1 | exact Hd2].
Qed.

Lemma NewEvent_ids_consecutive_witness :
  globalEvents
    (NewEvent "f2" None 8 (NewEvent "f1" (Some "a") 7 (lp boot)).1.2).1.2
  !! 1
  = Some {| Data := None; Feed := "f2"; Timestamp := int32_of 8 |}.
Proof.
  destruct (NewEvent_ids_consecutive "f1" "f2" (Some "a") None 7 8
              (lp boot)) as (_ & _ & Hsecond & _).
  - intros k. change (globalEvents (lp boot)) with (∅ : gmap Z event).
    rewrite lookup_empty, map_size_empty. split.
    + intros [e He]. discriminate He.
    + lia.
  - exact Hsecond.
Defined.

Lemma wrap_signed_range (bits z : Z) :
  0 < bits →
  - 2 ^ (bits - 1) ≤ wrap_signed bits z < 2 ^ (bits - 1)
  ∧ (- 2 ^ (bits - 1) ≤ z < 2 ^ (bits - 1) → wrap_signed bits z = z)
  ∧ (wrap_signed bits z - z) `mod` 2 ^ bits = 0.
Proof.
  intros Hbits. unfold wrap_signed.
  assert (Hpow : 2 ^ bits = 2 * 2 ^ (bits - 1)).
  { rewrite <- Z.pow_succ_r by lia. f_equal. lia. }
  assert (Hpos : 0 < 2 ^ (bits - 1)) by (apply Z.pow_pos_nonneg; lia).
  pose proof (Z.mod_pos_bound (z + 2 ^ (bits - 1)) (2 ^ bits)) as Hmod.
  split; [lia|]. split.
  - intros Hz. rewrite Z.mod_small by lia. lia.
  - rewrite (Z.mod_eq (z + 2 ^ (bits - 1)) (2 ^ bits)) by lia.
    replace (z + 2 ^ (bits - 1)
             - 2 ^ bits * ((z + 2 ^ (bits - 1)) `div` 2 ^ bits)
             - 2 ^ (bits - 1) - z)
      with (- ((z + 2 ^ (bits - 1)) `div` 2 ^ bits) * 2 ^ bits) by lia.
    apply Z.mod_mul. lia.
Qed.

(** X12: the timestamp of a logged event is the clock reading reduced to
    a signed 32-bit integer: it always lies in [-2^31, 2^31), it is the
    clock reading itself when that fits (until 2038), and otherwise
    differs from it by a multiple of 2^32. *)
Theorem NewEvent_timestamp (feed : string) (obj : object) (now : Z)
    (lp0 : LongPoll) :
  ∃ e,
    globalEvents (NewEvent feed obj now lp0).1.2
    !! Z.of_nat (size (globalEvents lp0)) = Some e
    ∧ - 2 ^ 31 ≤ Timestamp e < 2 ^ 31
    ∧ (- 2 ^ 31 ≤ now < 2 ^ 31 → Timestamp e = now)
    ∧ (Timestamp e - now) `mod` 2 ^ 32 = 0.
Proof.
  eexists. split; [rewrite NewEvent_log; apply lookup_insert_eq|].
  cbn [Timestamp]. apply (wrap_signed_range 32 now). lia.
Qed.

Lemma NewEvent_timestamp_witness :
  ∃ e,
    globalEvents (NewEvent "f1" None 1700000000 (lp boot)).1.2 !! 0 = Some e
    ∧ Timestamp e = 1700000000.
Proof.
  destruct (NewEvent_timestamp "f1" None 1700000000 (lp boot))
    as (e & He & _ & Hsame & _).
  exists e. split; [exact He|]. apply Hsame. lia.
Defined.

(** ** Configuring the feeds *)

Lemma register_feeds_lookup (feeds : list string) (m : feedToClients)
    (f : string) :
  register_feeds feeds m !! f
  = if decide (f ∈ feeds) then Some ∅ else m !! f.
Proof.
  revert m. induction feeds as [|feed rest IH]; intros m;
    cbn [register_feeds].
  - rewrite decide_False; [done | apply not_elem_of_nil].
  - rewrite IH. destruct (decide (f ∈ rest)) as [Hin|Hout].
    + rewrite decide_True; [done | by apply list_elem_of_further].
    + rewrite lookup_insert. destruct (decide (feed = f)) as [->|Hne].
      * rewrite decide_True; [done | apply list_elem_of_here].
      * rewrite decide_False; [done|].
        intros [?|?]%elem_of_cons; by simplify_eq.
Qed.

(** X13: [New] registers exactly the feeds of its options, each with an
    empty subscriber set (the empty name included, if it is listed), and
    starts with an empty Token Registry, Event Log, buffers and
    connection tables; a nil and an empty list of feeds give the same
    state. *)
Theorem New_registers_feeds (feeds : list string) :
  (∀ f, globalFeedToClients (New (Some feeds)) !! f
        = if decide (f ∈ feeds) then Some ∅ else None)
  ∧ (∀ t f, ¬ subscribed (New (Some feeds)) t f)
  ∧ globalClients (New (Some feeds)) = ∅
  ∧ globalEvents (New (Some feeds)) = ∅
  ∧ globalClientToNewEvents (New (Some feeds)) = ∅
  ∧ globalClientToConnection (New (Some feeds)) = ∅
  ∧ globalLastConnection (New (Some feeds)) = 0
  ∧ New (Some []) = New None.
Proof.
  assert (Hlook : ∀ f, globalFeedToClients (New (Some feeds)) !! f
                       = if decide (f ∈ feeds) then Some ∅ else None).
  { intros f. cbn [New globalFeedToClients set_globalFeedToClients].
    rewrite register_feeds_lookup.
    change (globalFeedToClients empty_LongPoll)
      with (∅ : gmap string (gmap string bool)).
    by rewrite lookup_empty. }
  split; [exact Hlook|]. split; [|done].
  intros t f (clients & Hf & Ht). rewrite Hlook in Hf.
  destruct (decide (f ∈ feeds)); [|done]. injection Hf as <-.
  rewrite lookup_empty in Ht. by destruct Ht.
Qed.

Lemma AddFeeds_loop_register (feeds : list string) (lp0 : LongPoll) :
  AddFeeds_loop feeds lp0
  = set_globalFeedToClients
      (register_feeds (filter (λ f, f ≠ "") feeds)
         (globalFeedToClients lp0)) lp0.
Proof.
  revert lp0. induction feeds as [|feed rest IH]; intros lp0;
    cbn [AddFeeds_loop].
  - by destruct lp0.
  - rewrite IH. destruct (decide (feed = "")) as [->|Hne].
    + by rewrite filter_cons_False by (intros H; by apply H).
    + rewrite filter_cons_True by done.
      by rewrite AddFeed_nonempty by done.
Qed.

(** X14: [AddFeeds] of the later revision binds every non-empty name of
    its list to an empty subscriber set, skips the empty name, and
    touches nothing else of the state; on a state just made it gives what
    [New] of the first revision gives for the same list, provided the
    list does not hold the empty name, which [New] alone registers. *)
Theorem AddFeeds_registers_feeds (feeds : list string) (lp0 : LongPoll) :
  (∀ f, globalFeedToClients (AddFeeds (Some feeds) lp0) !! f
        = if decide (f ∈ feeds ∧ f ≠ "") then Some ∅
          else globalFeedToClients lp0 !! f)
  ∧ AddFeeds (Some feeds) lp0
    = set_globalFeedToClients
        (globalFeedToClients (AddFeeds (Some feeds) lp0)) lp0
  ∧ AddFeeds None lp0 = lp0
  ∧ ("" ∉ feeds → AddFeeds (Some feeds) (New None) = New (Some feeds))
  ∧ ("" ∈ feeds →
     globalFeedToClients (AddFeeds (Some feeds) (New None)) !! "" = None
     ∧ globalFeedToClients (New (Some feeds)) !! "" = Some ∅).
Proof.
  assert (Hlook : ∀ l f,
            globalFeedToClients (AddFeeds (Some feeds) l) !! f
            = if decide (f ∈ feeds ∧ f ≠ "") then Some ∅
              else globalFeedToClients l !! f).
  { intros l f. cbn [AddFeeds]. rewrite AddFeeds_loop_register.
    cbn [globalFeedToClients set_globalFeedToClients].
    rewrite register_feeds_lookup.
    destruct (decide (f ∈ filter (λ f0, f0 ≠ "") feeds)) as [Hin|Hout].
    - apply list_elem_of_filter in Hin as [Hne Hin].
      by rewrite decide_True.
    - rewrite decide_False; [done|]. intros [Hin Hne]. apply Hout.
      by apply list_elem_of_filter. }
  split; [apply Hlook|]. split.
  { cbn [AddFeeds]. by rewrite AddFeeds_loop_register. }
  split; [done|]. split.
  - intros Hno. cbn [AddFeeds]. rewrite AddFeeds_loop_register.
    cbn [New]. f_equal. f_equal. clear Hlook.
    induction feeds as [|feed rest IH]; [done|].
    apply not_elem_of_cons in Hno as [Hne Hrest].
    rewrite filter_cons_True by done. by rewrite IH.
  - intros Hin. split.
    + rewrite Hlook. rewrite decide_False; [done|]. by intros [_ ?].
    + cbn [New globalFeedToClients set_globalFeedToClients].
      rewrite register_feeds_lookup. by rewrite decide_True.
Qed.

Lemma AddFeeds_registers_feeds_witness :
  AddFeeds (Some ["feed1"; "feed2"; "feed3"]) (New None)
  = New (Some ["feed1"; "feed2"; "feed3"])
  ∧ globalFeedToClients (AddFeeds (Some ["a"; ""]) (New None)) !! "" = None.
Proof.
  split.
  - apply (AddFeeds_registers_feeds ["feed1"; "feed2"; "feed3"] (New None)).
    intros Hin. repeat (apply elem_of_cons in Hin as [Hin|Hin];
                        [discriminate Hin|]).
    by apply elem_of_nil in Hin.
  - apply (AddFeeds_registers_feeds ["a"; ""] (New None)).
    apply list_elem_of_further, list_elem_of_here.
Defined.

(** ** The later revision: subscribing with an id of one's own *)

Lemma subscribe_with_flag (token : string) (feeds : list string)
    (lp0 : LongPoll) :
  globalClients (subscribe_with token feeds lp0).2
  = <[token := false]> (globalClients lp0)
  ∧ globalClientToConnection (subscribe_with token feeds lp0).2
    = globalClientToConnection lp0
  ∧ globalClientToNewEvents (subscribe_with token feeds lp0).2
    = globalClientToNewEvents lp0.
Proof. unfold subscribe_with. by repeat case_match. Qed.

Lemma subscribe_with_not_400 (token : string) (feeds : list string)
    (lp0 : LongPoll) (message : string) :
  (subscribe_with token feeds lp0).1 ≠ ErrorResponse 400 message.
Proof. unfold subscribe_with. by repeat case_match. Qed.

Section later.
Context {R : Type} (mint : R → string * R).

(** X15: the later [SubscribeHandler] answers 400 "Missing feed" exactly
    when the request names no feed, neither in its context nor in its
    URL, a list of feeds in the context taking precedence over the URL;
    the refused request changes nothing and mints no token. *)
Theorem Later_missing_feed (r : Later.request) (rnd : R) (lp0 : LongPoll) :
  ((Later.SubscribeHandler mint r rnd lp0).1.1
   = ErrorResponse 400 "Missing feed"
   ↔ (∀ c, Later.context_value r = Some c → Later.Feeds c = [])
     ∧ default [] (Later.url_query r !! "feed") = [])
  ∧ ((Later.SubscribeHandler mint r rnd lp0).1.1
     = ErrorResponse 400 "Missing feed" →
     Later.SubscribeHandler mint r rnd lp0
     = (ErrorResponse 400 "Missing feed", rnd, lp0))
  ∧ (∀ c, Later.context_value r = Some c → Later.Feeds c ≠ [] →
          Later.getFeeds r = Later.Feeds c).
Proof.
  assert (Hfeeds : Later.getFeeds r = []
                   ↔ (∀ c, Later.context_value r = Some c →
                           Later.Feeds c = [])
                     ∧ default [] (Later.url_query r !! "feed") = []).
  { unfold Later.getFeeds. destruct (Later.context_value r) as [c|].
    - destruct (Later.Feeds c) as [|f fs] eqn:Hc; cbn [length].
      + cbn. split; [|by intros [_ ?]].
        intros Hurl. split; [|done]. intros c' [= <-]. exact Hc.
      + cbn. split; [done|]. intros [Hctx _].
        specialize (Hctx c eq_refl). congruence.
    - split; [|by intros [_ ?]]. intros Hurl. by split. }
  assert (Hcase : ∀ feeds : list string,
            (Z.of_nat (length feeds) =? 0) = true ↔ feeds = []).
  { intros [|f fs]; cbn [length]; [done|]. split; [|done].
    intros H%Z.eqb_eq. lia. }
  unfold Later.SubscribeHandler.
  destruct (Z.of_nat (length (Later.getFeeds r)) =? 0) eqn:Hlen.
  - apply Hcase in Hlen. split; [|split; [done|]].
    + cbn [fst]. split; [intros _; by apply Hfeeds | done].
    + intros c Hc Hne. unfold Later.getFeeds. rewrite Hc.
      destruct (Later.Feeds c); [done | by cbn].
  - assert (Later.getFeeds r ≠ []) as Hne.
    { intros Hnil. apply Hcase in Hnil. congruence. }
    destruct (if String.eqb (Later.getSubscriptionID r) "" then mint rnd
              else (Later.getSubscriptionID r, rnd)) as [id rnd'].
    pose proof (subscribe_with_not_400 id (Later.getFeeds r) lp0
                  "Missing feed") as Hnot.
    destruct (subscribe_with id (Later.getFeeds r) lp0) as [resp lp'].
    cbn [fst] in *. split; [|split; [done|]].
    + split; [done|]. intros Hnone. by apply Hfeeds in Hnone.
    + intros c Hc Hnec. unfold Later.getFeeds. rewrite Hc.
      destruct (Later.Feeds c); [done | by cbn].
Qed.

(** X16: a subscriber that hands in a subscription id is subscribed under
    that id and no token is minted.  When every requested feed is
    registered the reply carries the id and the feeds, and the id is
    subscribed to the requested feeds on top of all it was subscribed to
    before: subscriptions under one id add up over calls, and no other
    subscriber gains or loses a feed. *)
Theorem Later_subscribe_keeps_id (r : Later.request) (rnd : R)
    (lp0 : LongPoll) :
  Later.getSubscriptionID r ≠ "" →
  Later.getFeeds r ≠ [] →
  Forall (λ f, is_Some (globalFeedToClients lp0 !! f)) (Later.getFeeds r) →
  ∃ lp',
    Later.SubscribeHandler mint r rnd lp0
    = (SubscriptionResponse (Later.getSubscriptionID r) (Later.getFeeds r),
       rnd, lp')
    ∧ globalClients lp' !! Later.getSubscriptionID r = Some false
    ∧ (∀ t f, subscribed lp' t f
              ↔ subscribed lp0 t f
                ∨ (t = Later.getSubscriptionID r ∧ f ∈ Later.getFeeds r)).
Proof.
  intros Hid Hfeeds Hall. unfold Later.SubscribeHandler.
  destruct (Later.getFeeds r) as [|f fs] eqn:Hf; [done|].
  cbn [length Z.of_nat Z.eqb].
  apply String.eqb_neq in Hid. rewrite Hid.
  destruct (subscribe_with_registered_feeds (Later.getSubscriptionID r)
              (f :: fs) lp0 Hall) as [-> Hsub].
  eexists. split; [reflexivity|]. split; [|exact Hsub].
  apply lookup_insert_eq.
Qed.

(** X17: subscribing again under an id clears its pending flag, whatever
    the outcome of the subscription, and leaves its connection on
    record.  If a listen call of that id is blocked at that moment, the
    notifier of the next publish finds the flag down and returns without
    sending: the event is buffered, and the blocked call is not woken by
    it. *)
Theorem Later_resubscribe_silences_notifier (r : Later.request) (rnd : R)
    (lp0 : LongPoll) (feed : string) (obj : object) (now : Z) :
  Later.getSubscriptionID r ≠ "" →
  Later.getFeeds r ≠ [] →
  let id := Later.getSubscriptionID r in
  let lp1 := (Later.SubscribeHandler mint r rnd lp0).2 in
  let published := NewEvent feed obj now lp1 in
  globalClients lp1 !! id = Some false
  ∧ globalClientToConnection lp1 = globalClientToConnection lp0
  ∧ notifyEvent_start id published.1.2 = NotifyReturned
  ∧ (subscribed lp1 id feed →
     pending_events published.1.2 id
     = (pending_events lp0 id ++ [Z.of_nat (size (globalEvents lp1))])%list).
Proof.
  intros Hid Hfeeds id lp1 published.
  assert (Hlp1 : lp1 = (subscribe_with id (Later.getFeeds r) lp0).2).
  { unfold lp1, Later.SubscribeHandler.
    destruct (Later.getFeeds r) as [|f fs] eqn:Hf; [done|].
    cbn [length Z.of_nat Z.eqb].
    apply String.eqb_neq in Hid. rewrite Hid. fold id.
    by destruct (subscribe_with id (f :: fs) lp0). }
  destruct (subscribe_with_flag id (Later.getFeeds r) lp0)
    as (Hflag & Hconn & Hpend).
  rewrite <- Hlp1 in Hflag, Hconn, Hpend.
  assert (Hdown : globalClients lp1 !! id = Some false).
  { rewrite Hflag. apply lookup_insert_eq. }
  split; [exact Hdown|]. split; [exact Hconn|]. split.
  - unfold notifyEvent_start.
    change (globalClients published.1.2) with (globalClients lp1).
    by rewrite Hdown.
  - intros Hsub.
    destruct (NewEvent_pending feed obj now lp1 id) as [Hyes _].
    unfold published. rewrite (Hyes Hsub). unfold pending_events.
    by rewrite Hpend.
Qed.

End later.

Lemma one_subscriber_registered :
  is_Some (globalFeedToClients one_subscriber !! "f1").
Proof.
  destruct one_subscriber_subscribed as (clients & Hf & _). by exists clients.
Qed.

(** A request whose context carries a subscription id and one feed. *)
Lemma Later_subscribe_keeps_id_witness :
  ∃ lp',
    Later.SubscribeHandler (λ n : nat, ("minted", S n))
      (Later.mk_request (Some (Later.mk_ContextStruct "me" ["f1"] "")) ∅)
      0%nat one_subscriber
    = (SubscriptionResponse "me" ["f1"], 0%nat, lp')
    ∧ globalClients lp' !! "me" = Some false.
Proof.
  destruct (Later_subscribe_keeps_id (λ n : nat, ("minted", S n))
              (Later.mk_request
                 (Some (Later.mk_ContextStruct "me" ["f1"] "")) ∅)
              0%nat one_subscriber) as (lp' & Hreply & Hflag & _).
  - discriminate.
  - discriminate.
  - constructor; [exact one_subscriber_registered | constructor].
  - exists lp'. split; [exact Hreply | exact Hflag].
Defined.

Lemma Later_resubscribe_silences_notifier_witness :
  notifyEvent_start T0
    (NewEvent "f1" (Some "P") 5
       (Later.SubscribeHandler (λ n : nat, ("minted", S n))
          (Later.mk_request
             (Some (Later.mk_ContextStruct T0 ["f1"] "session")) ∅)
          0%nat (lp (after buffered_while_listening))).2).1.2
  = NotifyReturned.
Proof.
  destruct (Later_resubscribe_silences_notifier
              (λ n : nat, ("minted", S n))
              (Later.mk_request
                 (Some (Later.mk_ContextStruct T0 ["f1"] "session")) ∅)
              0%nat (lp (after buffered_while_listening))
              "f1" (Some "P") 5) as (_ & _ & Hquiet & _).
  - discriminate.
  - discriminate.
  - exact Hquiet.
Defined.

Lemma Later_missing_feed_witness :
  Later.SubscribeHandler (λ n : nat, ("minted", S n))
    (Later.mk_request (Some (Later.mk_ContextStruct "me" [] ""))
       {["feed" := []]})
    0%nat one_subscriber
  = (ErrorResponse 400 "Missing feed", 0%nat, one_subscriber).
Proof.
  apply (Later_missing_feed (λ n : nat, ("minted", S n))).
  apply (Later_missing_feed (λ n : nat, ("minted", S n))).
  split.
  - intros c [= <-]. reflexivity.
  - vm_compute. reflexivity.
Defined.

(** ** Publishes that overlap *)

Lemma NewEvent_reads_length (feed : string) (obj : object) (now : Z)
    (lp0 : LongPoll) :
  NewEvent feed obj now lp0
  = NewEvent_after_read (Z.of_nat (size (globalEvents lp0))) feed obj now lp0.
Proof. reflexivity. Qed.

Lemma subscribed_lookup (lp0 : LongPoll) (t f : string) :
  subscribed lp0 t f
  ↔ (globalFeedToClients lp0 !! f ≫= (.!! t)) ≠ None.
Proof.
  unfold subscribed.
  destruct (globalFeedToClients lp0 !! f) as [clients|];
    cbn [mbind option_bind].
  - split.
    + intros (? & [= <-] & [b Hb]). congruence.
    + intros Hne. exists clients. split; [done|].
      by apply not_eq_None_Some.
  - split; [by intros (? & ? & ?) | done].
Qed.

(** Whatever index a [NewEvent] call has read, the rest of the call
    appends that index to the pending lists of the subscribers of the feed
    only, having stored its event under it. *)
Lemma NewEvent_after_read_pending (newIndex : Z) (feed : string)
    (obj : object) (now : Z) (lp0 : LongPoll) (t : string) :
  pending_events (NewEvent_after_read newIndex feed obj now lp0).1.2 t
  = pending_events lp0 t
  ∨ pending_events (NewEvent_after_read newIndex feed obj now lp0).1.2 t
    = (pending_events lp0 t ++ [newIndex])%list.
Proof.
  unfold NewEvent_after_read, pending_events. cbn [fst snd].
  cbn [globalClientToNewEvents set_globalClientToNewEvents set_globalEvents].
  rewrite foldl_append_event by apply NoDup_fst_map_to_list.
  destruct (decide (t ∈ _)); [by right | by left].
Qed.

Lemma pending_logged_frame (lp0 lp' : LongPoll) :
  pending_logged lp0 →
  globalEvents lp' = globalEvents lp0 →
  (∀ t, pending_events lp' t = pending_events lp0 t
        ∨ pending_events lp' t = []) →
  pending_logged lp'.
Proof.
  intros Hinv Hev Hpend t id Hin. rewrite Hev.
  destruct (Hpend t) as [Heq|Heq]; rewrite Heq in Hin.
  - by apply (Hinv t).
  - by apply elem_of_nil in Hin.
Qed.

Lemma pending_logged_after_read (newIndex : Z) (feed : string)
    (obj : object) (now : Z) (lp0 : LongPoll) :
  pending_logged lp0 →
  pending_logged (NewEvent_after_read newIndex feed obj now lp0).1.2.
Proof.
  intros Hinv t id Hin.
  assert (Hlog : globalEvents
                   (NewEvent_after_read newIndex feed obj now lp0).1.2
                 = <[newIndex := {| Data := obj; Feed := feed;
                                    Timestamp := int32_of now |}]>
                     (globalEvents lp0)) by done.
  rewrite Hlog. apply lookup_insert_is_Some.
  destruct (decide (newIndex = id)) as [|Hne]; [by left | right].
  split; [done|].
  destruct (NewEvent_after_read_pending newIndex feed obj now lp0 t)
    as [Heq|Heq]; rewrite Heq in Hin.
  - by apply (Hinv t).
  - apply elem_of_app in Hin as [Hin|Hin]; [by apply (Hinv t)|].
    apply list_elem_of_singleton in Hin. congruence.
Qed.

Lemma pending_logged_fetch (token : string) (lp0 : LongPoll) :
  pending_logged lp0 → pending_logged (ListenHandler_fetch token lp0).2.
Proof.
  intros Hinv. apply (pending_logged_frame lp0); [done|done|].
  intros t. rewrite fetch_pending.
  destruct (decide (token = t)); [by right | by left].
Qed.

Lemma pending_logged_register (token : string) (cur : Z) (c : nat)
    (lp0 : LongPoll) :
  pending_logged lp0 →
  pending_logged (ListenHandler_register token cur c lp0).2.
Proof.
  intros Hinv. unfold ListenHandler_register.
  set (lp2 := set_globalConnectionChannel _ _).
  assert (Hinv2 : pending_logged lp2).
  { apply (pending_logged_frame lp0); try done. by left. }
  destruct (_ =? _).
  - apply (pending_logged_frame lp2); try done. by left.
  - pose proof (pending_logged_fetch token lp2 Hinv2).
    by destruct (ListenHandler_fetch token lp2).
Qed.

Lemma pending_logged_start (tokens : option (list string)) (c : nat)
    (lp0 : LongPoll) :
  pending_logged lp0 → pending_logged (ListenHandler_start tokens c lp0).2.
Proof.
  intros Hinv. unfold ListenHandler_start.
  destruct tokens as [[|token rest]|]; try done.
  destruct (globalClients lp0 !! token); [|done].
  destruct (globalClientToConnection _ !! token); [done|].
  apply pending_logged_register.
  apply (pending_logged_frame lp0); try done. by left.
Qed.

Lemma pending_logged_wake (token operation : string) (lp0 : LongPoll) :
  pending_logged lp0 →
  pending_logged (ListenHandler_wake token operation lp0).2.
Proof.
  intros Hinv. unfold ListenHandler_wake.
  destruct (String.eqb operation "ABORT"); [done|].
  destruct (String.eqb operation "TIMEOUT").
  - apply (pending_logged_frame lp0); try done. by left.
  - by apply pending_logged_fetch.
Qed.

Section overlap.
Context {R : Type} `{!RandSource R}.

Lemma pending_logged_exec (a : action) (s s' : system R) :
  pending_logged (lp s) → exec a s = Some s' → pending_logged (lp s').
Proof.
  apply (exec_preserves pending_logged).
  - intros feeds r lp0 Hinv. unfold SubscribeHandler.
    destruct feeds as [feeds|]; [|done].
    destruct (GetNewToken 32 r) as [[token r']|]; [|done].
    assert (pending_logged (subscribe_with token feeds lp0).2).
    { apply (pending_logged_frame lp0); [done| |].
      - apply subscribe_with_log.
      - intros t. left. unfold pending_events.
        by rewrite (proj2 (proj2 (subscribe_with_flag token feeds lp0))). }
    by destruct (subscribe_with token feeds lp0).
  - intros tokens c lp0. apply pending_logged_start.
  - intros token cur c lp0. apply pending_logged_register.
  - intros token operation lp0. apply pending_logged_wake.
  - intros feed obj now lp0 Hinv. rewrite NewEvent_reads_length.
    by apply pending_logged_after_read.
  - intros client lp0 Hinv. apply (pending_logged_frame lp0); try done.
    by left.
Qed.

Lemma pending_logged_exec_fine (a : fine_action) (r r' : racing R) :
  pending_logged (lp (settled r)) → exec_fine a r = Some r' →
  pending_logged (lp (settled r')).
Proof.
  intros Hinv. destruct a as [a|feed obj now|i]; unfold exec_fine.
  - destruct (exec a (settled r)) as [s'|] eqn:Hexec; [|done].
    intros [= <-]. by apply (pending_logged_exec a (settled r)).
  - by intros [= <-].
  - destruct (in_flight r !! i) as [call|]; [|done].
    pose proof (pending_logged_after_read (pub_newIndex call)
                  (pub_feed call) (pub_object call) (pub_now call)
                  (lp (settled r)) Hinv) as Hafter.
    destruct (NewEvent_after_read _ _ _ _ _) as [[err lp'] clients].
    by intros [= <-].
Qed.

Lemma pending_logged_run_fine (acts : list fine_action) (r r' : racing R) :
  pending_logged (lp (settled r)) → run_fine acts r = Some r' →
  pending_logged (lp (settled r')).
Proof.
  revert r. induction acts as [|a rest IH]; intros r Hinv; simpl.
  - by intros [= <-].
  - destruct (exec_fine a r) as [r1|] eqn:Ha; [|done].
    apply IH. by apply (pending_logged_exec_fine a r).
Qed.

(** A run whose publishes are whole calls is a run of the finer
    scheduler. *)
Lemma run_fine_Step (acts : list action) (s s' : system R)
    (calls : list publishing) :
  run acts s = Some s' →
  run_fine (Step <$> acts) (mk_racing s calls) = Some (mk_racing s' calls).
Proof.
  revert s. induction acts as [|a rest IH]; intros s; simpl.
  - by intros [= <-].
  - destruct (exec a s) as [s1|]; [|done]. apply IH.
Qed.

Lemma reachable_overlapping_reachable (s : system R) :
  reachable s → reachable_overlapping s.
Proof.
  intros (Feeds & seed & acts & Hrun).
  exists Feeds, seed, (Step <$> acts), (mk_racing s []).
  split; [by apply run_fine_Step | done].
Qed.

(** C9, amended: every id in a pending list is a key of the Event Log, so
    the fetch loop of a delivering listen call finds a log entry for each
    id it reads (the missing-key branch is unreachable), at every reachable
    state, also when [NewEvent] calls overlap between their read of the
    length of the log and their write.  The entry found is the event that
    was published under the id at the states reached by runs in which no
    two [NewEvent] calls overlap: there a published event stays under its
    id in every later state. *)
Theorem pending_ids_logged :
  (∀ s : system R,
     reachable_overlapping s →
     pending_logged (lp s)
     ∧ ∀ token,
         (ListenHandler_fetch token (lp s)).1
         = EventResponse (log_entries (lp s) (pending_events (lp s) token))
         ∧ fetched (lp s) (pending_events (lp s) token)
             (log_entries (lp s) (pending_events (lp s) token)))
  ∧ (∀ s : system R,
       reachable s →
       ∀ feed obj now s1 acts s2,
         exec (Publish feed obj now) s = Some s1 →
         run acts s1 = Some s2 →
         globalEvents (lp s2) !! Z.of_nat (size (globalEvents (lp s)))
         = Some {| Data := obj; Feed := feed; Timestamp := int32_of now |}).
Proof.
  split.
  - intros s (Feeds & seed & acts & r & Hrun & <-).
    assert (Hinv : pending_logged (lp (settled r))).
    { revert Hrun. apply pending_logged_run_fine. cbn [settled].
      apply consistent_pending_logged, consistent_New. }
    split; [exact Hinv|]. intros token. split; [apply fetch_reply|].
    apply log_entries_fetched, Forall_forall. intros id Hin.
    by apply (Hinv token).
  - intros s Hreach feed obj now s1 acts s2 Hexec Hrun.
    pose proof (reachable_consistent s Hreach) as Hc.
    destruct (exec_consistent _ _ _ Hc Hexec) as [Hc1 _].
    destruct (run_consistent _ _ _ Hc1 Hrun) as [_ Hsub].
    eapply lookup_weaken; [|exact Hsub].
    unfold exec in Hexec.
    pose proof (NewEvent_log feed obj now (lp s)) as Hlog.
    destruct (NewEvent feed obj now (lp s)) as [[err lp'] clients].
    injection Hexec as <-. simpl in *. rewrite Hlog.
    apply lookup_insert_eq.
Qed.

End overlap.

(** The states of the scenarios of two overlapping calls. *)
Lemma overlap_two_feeds_state :
  run_fine overlap_two_feeds boot2 = Some (after_fine overlap_two_feeds)
  ∧ pending_events (lp (settled (after_fine overlap_two_feeds))) T0 = [0]
  ∧ globalEvents (lp (settled (after_fine overlap_two_feeds))) !! 0
    = Some {| Data := Some "Q"; Feed := "f2"; Timestamp := 101 |}
  ∧ ¬ subscribed (lp (settled (after_fine overlap_two_feeds))) T0 "f2".
Proof.
  split; [vm_compute; reflexivity|]. split; [vm_compute; reflexivity|].
  split; [vm_compute; reflexivity|].
  rewrite subscribed_lookup.
  assert ((globalFeedToClients (lp (settled (after_fine overlap_two_feeds)))
             !! "f2" ≫= (.!! T0)) = None) as -> by (vm_compute; reflexivity).
  by intros H.
Qed.

Lemma pending_ids_logged_witness :
  pending_logged (lp (settled (after_fine overlap_two_feeds)))
  ∧ globalEvents
      (lp (after [Subscribe (Some ["f1"]); Publish "f1" (Some "P1") 100;
                  Listen (Some [T0])]))
    !! 0
    = Some {| Data := Some "P1"; Feed := "f1"; Timestamp := int32_of 100 |}.
Proof.
  destruct (pending_ids_logged (R := nat)) as [Hlogged Hstays]. split.
  - apply Hlogged.
    exists (Some ["f1"; "f2"]), 0%nat, overlap_two_feeds,
      (after_fine overlap_two_feeds).
    split; [apply overlap_two_feeds_state | reflexivity].
  - apply (Hstays (after [Subscribe (Some ["f1"])])
             ltac:(apply reachable_after; vm_compute; eexists; reflexivity)
             "f1" (Some "P1") 100
             (after [Subscribe (Some ["f1"]); Publish "f1" (Some "P1") 100])
             [Listen (Some [T0])]).
    + vm_compute. reflexivity.
    + vm_compute. reflexivity.
Defined.

(** C7, as stated, fails when two [NewEvent] calls overlap.  Both calls
    read the same length of the Event Log; the call for ["f1"] stores its
    event under that id and queues the id for the subscriber of ["f1"];
    the call for ["f2"] then stores its own event under the same id.  The
    pending list of the subscriber now names an event of ["f2"], a feed
    it never subscribed to, and its next listen call delivers that event.
    With both calls for ["f1"] the id is queued twice, so the pending
    list is not in increasing order. *)
Lemma overlapping_publishes_break_pending :
  reachable_overlapping (settled (after_fine overlap_two_feeds))
  ∧ pending_events (lp (settled (after_fine overlap_two_feeds))) T0 = [0]
  ∧ globalEvents (lp (settled (after_fine overlap_two_feeds))) !! 0
    = Some {| Data := Some "Q"; Feed := "f2"; Timestamp := 101 |}
  ∧ ¬ subscribed (lp (settled (after_fine overlap_two_feeds))) T0 "f2"
  ∧ ¬ pending_subscribed (lp (settled (after_fine overlap_two_feeds)))
  ∧ (ListenHandler_start (Some [T0]) 0%nat
       (lp (settled (after_fine overlap_two_feeds)))).1
    = Replied
        (EventResponse
           [{| Data := Some "Q"; Feed := "f2"; Timestamp := 101 |}])
  ∧ reachable_overlapping (settled (after_fine overlap_one_feed))
  ∧ pending_events (lp (settled (after_fine overlap_one_feed))) T0 = [0; 0]
  ∧ ¬ pending_increasing (lp (settled (after_fine overlap_one_feed))).
Proof.
  destruct overlap_two_feeds_state as (Hrun & Hpend & Hlog & Hnot).
  split.
  { exists (Some ["f1"; "f2"]), 0%nat, overlap_two_feeds,
      (after_fine overlap_two_feeds). by split. }
  split; [exact Hpend|]. split; [exact Hlog|]. split; [exact Hnot|].
  split.
  { intros Hall. destruct (Hall T0 0) as (e & He & Hsub).
    - rewrite Hpend. apply list_elem_of_here.
    - rewrite Hlog in He. injection He as <-. by apply Hnot. }
  split; [vm_compute; reflexivity|].
  assert (Hpend2 : pending_events
                     (lp (settled (after_fine overlap_one_feed))) T0
                   = [0; 0]) by (vm_compute; reflexivity).
  split.
  { exists (Some ["f1"; "f2"]), 0%nat, overlap_one_feed,
      (after_fine overlap_one_feed).
    split; [vm_compute; reflexivity | reflexivity]. }
  split; [exact Hpend2|].
  intros Hinc. specialize (Hinc T0). rewrite Hpend2 in Hinc.
  apply StronglySorted_inv in Hinc as [_ Hlt].
  apply Forall_cons in Hlt as [Hlt _]. lia.
Qed.

(** C9, as stated, fails when two [NewEvent] calls overlap.  Once the
    call for ["f1"] has run, id 0 is pending for the subscriber and the
    log holds under it the event published under it; once the call for
    ["f2"], which had read the same length, has run too, id 0 is still
    pending and still a key of the log, but the entry found under it is
    the event of the other call. *)
Lemma overlapping_publish_replaces_event :
  reachable_overlapping
    (settled (after_fine (take 4 overlap_two_feeds)))
  ∧ pending_events
      (lp (settled (after_fine (take 4 overlap_two_feeds)))) T0 = [0]
  ∧ globalEvents (lp (settled (after_fine (take 4 overlap_two_feeds)))) !! 0
    = Some {| Data := Some "P"; Feed := "f1"; Timestamp := 100 |}
  ∧ exec_fine (PublishWrite 0) (after_fine (take 4 overlap_two_feeds))
    = Some (after_fine overlap_two_feeds)
  ∧ pending_events (lp (settled (after_fine overlap_two_feeds))) T0 = [0]
  ∧ (ListenHandler_fetch T0
       (lp (settled (after_fine overlap_two_feeds)))).1
    = EventResponse
        [{| Data := Some "Q"; Feed := "f2"; Timestamp := 101 |}].
Proof.
  split.
  { exists (Some ["f1"; "f2"]), 0%nat, (take 4 overlap_two_feeds),
      (after_fine (take 4 overlap_two_feeds)).
    split; [vm_compute; reflexivity | reflexivity]. }
  split; [vm_compute; reflexivity|]. split; [vm_compute; reflexivity|].
  split; [vm_compute; reflexivity|]. split; [vm_compute; reflexivity|].
  vm_compute. reflexivity.
Qed.

(** ** Invariants that overlapping publishes keep *)

Section fine_invariants.
Context {R : Type} `{!RandSource R}.

Lemma exec_fine_preserves (P : LongPoll → Prop) :
  (∀ a (s s' : system R), P (lp s) → exec a s = Some s' → P (lp s')) →
  (∀ n feed obj now lp0,
     P lp0 → P (NewEvent_after_read n feed obj now lp0).1.2) →
  ∀ a (r r' : racing R),
    P (lp (settled r)) → exec_fine a r = Some r' → P (lp (settled r')).
Proof.
  intros Hexec Hafter a r r' HP.
  destruct a as [a|feed obj now|i]; unfold exec_fine.
  - destruct (exec a (settled r)) as [s'|] eqn:Ha; [|done].
    intros [= <-]. by apply (Hexec a (settled r)).
  - by intros [= <-].
  - destruct (in_flight r !! i) as [call|]; [|done].
    specialize (Hafter (pub_newIndex call) (pub_feed call) (pub_object call)
                  (pub_now call) (lp (settled r)) HP).
    destruct (NewEvent_after_read _ _ _ _ _) as [[err lp'] clients].
    by intros [= <-].
Qed.

Lemma run_fine_preserves (P : LongPoll → Prop) :
  (∀ a (r r' : racing R),
     P (lp (settled r)) → exec_fine a r = Some r' → P (lp (settled r'))) →
  ∀ acts (r r' : racing R),
    P (lp (settled r)) → run_fine acts r = Some r' → P (lp (settled r')).
Proof.
  intros Hexec acts. induction acts as [|a rest IH]; intros r r' HP; simpl.
  - by intros [= <-].
  - destruct (exec_fine a r) as [r1|] eqn:Ha; [|done].
    apply IH. by apply (Hexec a r).
Qed.

(** X3: a token that is in the Token Registry stays there along every
    run, overlapping publishes included: no step removes it, so no later
    listen call with that token is answered 401. *)
Theorem registered_token_never_unauthorized (t : string)
    (acts : list fine_action) (r r' : racing R) :
  is_Some (globalClients (lp (settled r)) !! t) →
  run_fine acts r = Some r' →
  is_Some (globalClients (lp (settled r')) !! t)
  ∧ ∀ rest fresh,
      (ListenHandler_start (Some (t :: rest)) fresh (lp (settled r'))).1
      ≠ Replied (ErrorResponse 401 "Unauthorized").
Proof.
  intros Ht Hrun.
  assert (Ht' : is_Some (globalClients (lp (settled r')) !! t)).
  { revert Ht Hrun.
    apply (run_fine_preserves (λ l, is_Some (globalClients l !! t))).
    apply (exec_fine_preserves (λ l, is_Some (globalClients l !! t)));
      [apply registered_stays | done]. }
  split; [exact Ht'|]. intros rest fresh.
  destruct Ht' as [b Hb]. unfold ListenHandler_start. rewrite Hb.
  destruct (globalClientToConnection _ !! t); [done|].
  unfold ListenHandler_register, ListenHandler_fetch.
  by destruct (_ =? _).
Qed.


End fine_invariants.


Lemma registered_token_never_unauthorized_witness :
  is_Some (globalClients (lp (settled (after_fine overlap_two_feeds))) !! T0).
Proof.
  destruct (registered_token_never_unauthorized T0
              (drop 1 overlap_two_feeds)
              (after_fine (take 1 overlap_two_feeds))
              (after_fine overlap_two_feeds)) as [Hreg _].
  - vm_compute. eexists. reflexivity.
  - vm_compute. reflexivity.
  - exact Hreg.
Defined.

(** ** The pool of goroutines *)

Lemma receiving_on_Some (p : list goroutine) (k c : nat) :
  p !! k ≫= receiving_on = Some c
  ↔ ∃ t cur, p !! k = Some (ListenAtRecv t cur c).
Proof.
  destruct (p !! k) as [[]|]; cbn; split;
    try (by intros [= <-]; eauto); try done;
    try (by intros (? & ? & [= <- <- <-])); by intros (? & ? & ?).
Qed.

Lemma timeout_for_Some (p : list goroutine) (k c : nat) :
  p !! k ≫= timeout_for = Some c ↔ p !! k = Some (TimeoutAtSend c).
Proof.
  destruct (p !! k) as [[]|]; cbn; split; try done;
    by intros [= <-].
Qed.

Lemma offered_send_after_quiet (g after : goroutine) (c : nat)
    (operation : string) :
  offered_send g = Some (c, operation, after) → quiet after.
Proof.
  destruct g as [? ? [?|]| | | | |? [?|]| | |]; cbn; try done;
    by intros [= <- <- <-].
Qed.

(** A step that puts a quiet goroutine at one place, which held a quiet one
    if any, and appends quiet goroutines. *)
Lemma transfer_quiet (n n' : nat) (p extra : list goroutine) (i : nat)
    (g : goroutine) :
  (n ≤ n')%nat →
  (∀ old, p !! i = Some old → quiet old) →
  quiet g → Forall quiet extra →
  pool_transfer n p n' (<[i := g]> p ++ extra)%list.
Proof.
  intros Hle Hold [Hg1 Hg2] Hextra.
  assert (Hlook : ∀ k x, (<[i := g]> p ++ extra)%list !! k = Some x →
            (p !! k = Some x ∧ k ≠ i) ∨ quiet x).
  { intros k x. rewrite lookup_app_Some, list_lookup_insert_Some.
    intros [[(-> & <- & _)|[Hne Hk]]|[_ Hk]].
    - by right.
    - by left.
    - right. rewrite Forall_forall in Hextra. eapply Hextra.
      by eapply list_elem_of_lookup_2. }
  assert (Hkeep : ∀ k x, p !! k = Some x → ¬ quiet x →
            (<[i := g]> p ++ extra)%list !! k = Some x).
  { intros k x Hk Hnq. apply lookup_app_l_Some.
    rewrite list_lookup_insert_ne; [done|]. intros ->.
    by apply Hnq, Hold. }
  split; [exact Hle|]. split; [|split; [|split; [|split]]].
  - intros k c Hk. left.
    destruct ((<[i := g]> p ++ extra)%list !! k) as [x|] eqn:Hx; [|done].
    destruct (Hlook k x Hx) as [[Hp _]|[Hq _]]; [by rewrite Hp|].
    cbn in Hk. congruence.
  - intros k c Hk. left.
    destruct ((<[i := g]> p ++ extra)%list !! k) as [x|] eqn:Hx; [|done].
    destruct (Hlook k x Hx) as [[Hp _]|[_ Hq]]; [by rewrite Hp|].
    cbn in Hk. congruence.
  - intros k1 k2 c Hk1 _ Hnew1 _. exfalso. apply Hnew1.
    destruct ((<[i := g]> p ++ extra)%list !! k1) as [x|] eqn:Hx; [|done].
    destruct (Hlook k1 x Hx) as [[Hp _]|[Hq _]]; [by rewrite Hp|].
    cbn in Hk1. congruence.
  - intros k c Hk Hnew. exfalso. apply Hnew.
    destruct ((<[i := g]> p ++ extra)%list !! k) as [x|] eqn:Hx; [|done].
    destruct (Hlook k x Hx) as [[Hp _]|[Hq _]]; [by rewrite Hp|].
    cbn in Hk. congruence.
  - intros i0 c Hi0. left. apply Hkeep; [done|]. by intros [_ ?].
Qed.

(** A listen call that comes in and starts waiting, with its timeout. *)
Lemma transfer_wait_new (n n' : nat) (p : list goroutine) (t : string)
    (cur : Z) :
  (n < n')%nat →
  pool_transfer n p n'
    (p ++ [ListenAtRecv t cur n; TimeoutAtSend n])%list.
Proof.
  intros Hlt.
  assert (Hlook : ∀ k x,
            (p ++ [ListenAtRecv t cur n; TimeoutAtSend n])%list !! k = Some x →
            p !! k = Some x
            ∨ (k = length p ∧ x = ListenAtRecv t cur n)
            ∨ x = TimeoutAtSend n).
  { intros k x. rewrite lookup_app_Some. intros [Hk|[Hge Hk]]; [by left|].
    right. destruct (k - length p)%nat as [|[|m]] eqn:Hm; cbn in Hk.
    - left. split; [lia | congruence].
    - right. congruence.
    - done. }
  split; [lia|]. split; [|split; [|split; [|split]]].
  - intros k c Hk.
    destruct (_ !! k) as [x|] eqn:Hx; [|done].
    destruct (Hlook k x Hx) as [Hp|[[_ ->]| ->]]; cbn in Hk.
    + left. by rewrite Hp.
    + right. split; [congruence | done].
    + done.
  - intros k c Hk.
    destruct (_ !! k) as [x|] eqn:Hx; [|done].
    destruct (Hlook k x Hx) as [Hp|[[_ ->]| ->]]; cbn in Hk.
    + left. by rewrite Hp.
    + done.
    + right. split; [congruence | done].
  - assert (Hnew : ∀ k c,
              (p ++ [ListenAtRecv t cur n; TimeoutAtSend n])%list !! k
                ≫= receiving_on = Some c →
              p !! k ≫= receiving_on ≠ Some c → k = length p).
    { intros k c Hk Hnot.
      destruct (_ !! k) as [x|] eqn:Hx; [|done].
      destruct (Hlook k x Hx) as [Hp|[[-> _]| ->]]; [|done|done].
      exfalso. apply Hnot. by rewrite Hp. }
    intros k1 k2 c Hk1 Hk2 Hn1 Hn2.
    by rewrite (Hnew k1 c Hk1 Hn1), (Hnew k2 c Hk2 Hn2).
  - intros k c Hk Hnot. exists (S (length p)).
    destruct (_ !! k) as [x|] eqn:Hx; [|done].
    destruct (Hlook k x Hx) as [Hp|[[_ ->]| ->]]; cbn in Hk.
    + exfalso. apply Hnot. by rewrite Hp.
    + injection Hk as <-. rewrite lookup_app_r by lia.
      by replace (S (length p) - length p)%nat with 1%nat by lia.
    + done.
  - intros i0 c Hi0. left. by apply lookup_app_l_Some.
Qed.

(** A listen call that, its ["ABORT"] taken, registers and starts
    waiting, with its timeout. *)
Lemma transfer_wait_resumed (n n' : nat) (p : list goroutine) (i : nat)
    (old : goroutine) (t : string) (cur : Z) :
  (n < n')%nat →
  p !! i = Some old → quiet old →
  pool_transfer n p n'
    (<[i := ListenAtRecv t cur n]> p ++ [TimeoutAtSend n])%list.
Proof.
  intros Hlt Hi Hold.
  assert (Hlook : ∀ k x,
            (<[i := ListenAtRecv t cur n]> p ++ [TimeoutAtSend n])%list !! k
            = Some x →
            (p !! k = Some x ∧ k ≠ i)
            ∨ (k = i ∧ x = ListenAtRecv t cur n)
            ∨ x = TimeoutAtSend n).
  { intros k x. rewrite lookup_app_Some, list_lookup_insert_Some.
    intros [[(-> & <- & _)|[Hne Hk]]|[_ Hk]].
    - right. by left.
    - by left.
    - right. right. destruct (k - _)%nat as [|m]; cbn in Hk;
        [congruence | by destruct m]. }
  split; [lia|]. split; [|split; [|split; [|split]]].
  - intros k c Hk.
    destruct (_ !! k) as [x|] eqn:Hx; [|done].
    destruct (Hlook k x Hx) as [[Hp _]|[[_ ->]| ->]]; cbn in Hk.
    + left. by rewrite Hp.
    + right. split; [congruence | done].
    + done.
  - intros k c Hk.
    destruct (_ !! k) as [x|] eqn:Hx; [|done].
    destruct (Hlook k x Hx) as [[Hp _]|[[_ ->]| ->]]; cbn in Hk.
    + left. by rewrite Hp.
    + done.
    + right. split; [congruence | done].
  - assert (Hnew : ∀ k c,
              (<[i := ListenAtRecv t cur n]> p ++ [TimeoutAtSend n])%list
                !! k ≫= receiving_on = Some c →
              p !! k ≫= receiving_on ≠ Some c → k = i).
    { intros k c Hk Hnot.
      destruct (_ !! k) as [x|] eqn:Hx; [|done].
      destruct (Hlook k x Hx) as [[Hp _]|[[-> _]| ->]]; [|done|done].
      exfalso. apply Hnot. by rewrite Hp. }
    intros k1 k2 c Hk1 Hk2 Hn1 Hn2.
    by rewrite (Hnew k1 c Hk1 Hn1), (Hnew k2 c Hk2 Hn2).
  - intros k c Hk Hnot. exists (length p).
    destruct (_ !! k) as [x|] eqn:Hx; [|done].
    destruct (Hlook k x Hx) as [[Hp _]|[[_ ->]| ->]]; cbn in Hk.
    + exfalso. apply Hnot. by rewrite Hp.
    + injection Hk as <-. rewrite lookup_app_r by (rewrite length_insert; lia).
      rewrite length_insert. by replace (length p - length p)%nat with 0%nat by lia.
    + done.
  - intros i0 c Hi0. left. apply lookup_app_l_Some.
    rewrite list_lookup_insert_ne; [done|]. intros ->.
    rewrite Hi in Hi0. injection Hi0 as ->. by destruct Hold.
Qed.

(** A sender and the listen call waiting on its channel meet. *)
Lemma transfer_sync (n : nat) (p : list goroutine) (i j : nat)
    (sender after : goroutine) (c : nat) (operation : string) (t : string)
    (cur : Z) :
  p !! i = Some sender →
  offered_send sender = Some (c, operation, after) →
  p !! j = Some (ListenAtRecv t cur c) →
  pool_transfer n p n
    (<[j := ListenAfterRecv t cur operation]> (<[i := after]> p)).
Proof.
  intros Hi Hoffer Hj.
  pose proof (offered_send_after_quiet _ _ _ _ Hoffer) as [Hq1 Hq2].
  assert (Hlook : ∀ k x,
            <[j := ListenAfterRecv t cur operation]> (<[i := after]> p) !! k
            = Some x →
            (p !! k = Some x ∧ k ≠ i ∧ k ≠ j) ∨ quiet x).
  { intros k x. rewrite !list_lookup_insert_Some.
    intros [(-> & <- & _)|[Hne [(-> & <- & _)|[Hne' Hk]]]].
    - by right.
    - by right.
    - by left. }
  assert (Hold : ∀ k c0,
            <[j := ListenAfterRecv t cur operation]> (<[i := after]> p) !! k
              ≫= receiving_on = Some c0 →
            p !! k ≫= receiving_on = Some c0).
  { intros k c0 Hk. destruct (_ !! k) as [x|] eqn:Hx; [|done].
    destruct (Hlook k x Hx) as [[Hp _]|[Hq _]]; [by rewrite Hp|].
    cbn in Hk. congruence. }
  split; [done|]. split; [|split; [|split; [|split]]].
  - intros k c0 Hk. left. by apply Hold.
  - intros k c0 Hk. left. destruct (_ !! k) as [x|] eqn:Hx; [|done].
    destruct (Hlook k x Hx) as [[Hp _]|[_ Hq]]; [by rewrite Hp|].
    cbn in Hk. congruence.
  - intros k1 k2 c0 Hk1 _ Hn1 _. exfalso. by apply Hn1, Hold.
  - intros k c0 Hk Hn. exfalso. by apply Hn, Hold.
  - intros i0 c0 Hi0.
    assert (Hj' : (j < length (<[i := after]> p))%nat).
    { rewrite length_insert. by eapply lookup_lt_Some. }
    assert (i0 ≠ j) as Hne by (intros ->; congruence).
    destruct (decide (i0 = i)) as [->|Hne'].
    + right. exists j. rewrite Hi in Hi0. injection Hi0 as ->.
      cbn in Hoffer. injection Hoffer as <- _ _.
      split; [by rewrite Hj|]. by rewrite list_lookup_insert_eq.
    + left. by rewrite !list_lookup_insert_ne.
Qed.

Lemma transfer_same (n : nat) (p : list goroutine) : pool_transfer n p n p.
Proof.
  pose proof (transfer_quiet n n p [] (length p) Exited) as Htr.
  rewrite list_insert_ge, app_nil_r in Htr by done. apply Htr; try done.
  intros old Hold. apply lookup_lt_Some in Hold. lia.
Qed.

Lemma transfer_spawn (n n' : nat) (p extra : list goroutine) :
  (n ≤ n')%nat → Forall quiet extra → pool_transfer n p n' (p ++ extra)%list.
Proof.
  intros Hle Hq.
  pose proof (transfer_quiet n n' p extra (length p) Exited) as Htr.
  rewrite list_insert_ge in Htr by done. apply Htr; try done.
  intros old Hold. apply lookup_lt_Some in Hold. lia.
Qed.

Lemma transfer_replace (n n' : nat) (p : list goroutine) (i : nat)
    (old g : goroutine) :
  (n ≤ n')%nat → p !! i = Some old → quiet old → quiet g →
  pool_transfer n p n' (<[i := g]> p).
Proof.
  intros Hle Hi Hold Hg.
  pose proof (transfer_quiet n n' p [] i g) as Htr.
  rewrite app_nil_r in Htr. apply Htr; try done.
  intros old' Hold'. congruence.
Qed.

Lemma register_receiving_fresh (token : string) (cur : Z) (c : nat)
    (lp0 lp' : LongPoll) (t : string) (cur' : Z) (c' : nat) :
  ListenHandler_register token cur c lp0 = (Receiving t cur' c', lp') →
  c' = c.
Proof.
  unfold ListenHandler_register, ListenHandler_fetch.
  destruct (_ =? _); [by intros [= _ _ <- _] | done].
Qed.

Lemma start_receiving_fresh (tokens : option (list string)) (c : nat)
    (lp0 lp' : LongPoll) (t : string) (cur' : Z) (c' : nat) :
  ListenHandler_start tokens c lp0 = (Receiving t cur' c', lp') → c' = c.
Proof.
  unfold ListenHandler_start.
  destruct tokens as [[|token rest]|]; try done.
  destruct (globalClients lp0 !! token); [|done].
  destruct (globalClientToConnection _ !! token); [done|].
  apply register_receiving_fresh.
Qed.

Section pool.
Context {R : Type} `{!RandSource R}.

Lemma settle_listen_transfer (slot : option nat) (l : listening)
    (lp' : LongPoll) (s : system R) :
  (∀ t cur c, l = Receiving t cur c → c = chans s) →
  (∀ i, slot = Some i → ∃ old, pool s !! i = Some old ∧ quiet old) →
  pool_transfer (chans s) (pool s)
    (chans (settle_listen slot l lp' s))
    (pool (settle_listen slot l lp' s)).
Proof.
  intros Hfresh Hslot.
  destruct l as [resp|t cur target|t cur c]; cbn [settle_listen pool chans].
  - destruct slot as [i|].
    + destruct (Hslot i eq_refl) as (old & Hi & Hold). rewrite app_nil_r.
      by apply (transfer_replace _ _ _ i old); [lia| | |].
    + apply transfer_spawn; [lia|]. by repeat constructor.
  - destruct slot as [i|].
    + destruct (Hslot i eq_refl) as (old & Hi & Hold). rewrite app_nil_r.
      by apply (transfer_replace _ _ _ i old); [lia| | |].
    + apply transfer_spawn; [lia|]. by repeat constructor.
  - rewrite (Hfresh t cur c eq_refl). destruct slot as [i|].
    + destruct (Hslot i eq_refl) as (old & Hi & Hold).
      by apply (transfer_wait_resumed _ _ _ i old); [lia| |].
    + apply transfer_wait_new. lia.
Qed.

(** Every step of the scheduler changes the pool in one of these ways. *)
Lemma exec_transfer (a : action) (s s' : system R) :
  exec a s = Some s' →
  pool_transfer (chans s) (pool s) (chans s') (pool s').
Proof.
  destruct a as [feeds|tokens|feed obj now|i|i j]; unfold exec.
  - destruct (SubscribeHandler feeds (rng s) (lp s)) as [[resp r'] lp'].
    intros [= <-]. apply transfer_same.
  - destruct (ListenHandler_start tokens (chans s) (lp s)) as [l lp']
      eqn:Hstart.
    intros [= <-]. apply settle_listen_transfer; [|done].
    intros t cur c ->. by eapply start_receiving_fresh.
  - destruct (NewEvent feed obj now (lp s)) as [[err lp'] clients].
    intros [= <-]. cbn [pool chans]. apply transfer_spawn; [done|].
    apply Forall_fmap, Forall_forall. by intros.
  - destruct (pool s !! i) as [[]|] eqn:Hi; try done.
    + destruct (ListenHandler_register _ _ _ _) as [l lp'] eqn:Hreg.
      intros [= <-]. apply settle_listen_transfer.
      * intros t cur c ->. by eapply register_receiving_fresh.
      * intros ? [= <-]. by eexists.
    + destruct (ListenHandler_wake _ _ _) as [resp lp'].
      intros [= <-]. cbn [pool chans].
      by eapply transfer_replace.
    + intros [= <-]. cbn [pool chans].
      eapply transfer_replace; [done|exact Hi|done|].
      by destruct (notifyEvent_start _ _).
    + intros [= <-]. cbn [pool chans]. by eapply transfer_replace.
  - destruct (pool s !! i) as [snd|] eqn:Hi; [|done]. cbn [mbind option_bind].
    destruct (offered_send snd) as [[[c op] g]|] eqn:Hoffer; [|done].
    destruct (pool s !! j) as [[]|] eqn:Hj; try done.
    case_decide; [|done]. subst. intros [= <-]. cbn [pool chans].
    by eapply transfer_sync.
Qed.

Lemma exec_fine_transfer (a : fine_action) (r r' : racing R) :
  exec_fine a r = Some r' →
  pool_transfer (chans (settled r)) (pool (settled r))
    (chans (settled r')) (pool (settled r')).
Proof.
  destruct a as [a|feed obj now|i]; unfold exec_fine.
  - destruct (exec a (settled r)) as [s'|] eqn:Hexec; [|done].
    intros [= <-]. by apply (exec_transfer a).
  - intros [= <-]. apply transfer_same.
  - destruct (in_flight r !! i) as [call|]; [|done].
    destruct (NewEvent_after_read _ _ _ _ _) as [[err lp'] clients].
    intros [= <-]. cbn [settled pool chans]. apply transfer_spawn; [done|].
    apply Forall_fmap, Forall_forall. by intros.
Qed.

Lemma pool_ok_transfer (s s' : system R) :
  pool_ok s →
  pool_transfer (chans s) (pool s) (chans s') (pool s') →
  pool_ok s'.
Proof.
  intros [Ha Hd Hb Hc] (Hle & T2 & T3 & T4 & T5 & T6). split.
  - intros j c Hj. destruct (T2 j c Hj) as [Hold|[-> Hlt]]; [|done].
    specialize (Ha j c Hold). lia.
  - intros i c Hi. destruct (T3 i c Hi) as [Hold|[-> Hlt]]; [|done].
    specialize (Hd i c Hold). lia.
  - intros j1 j2 c Hj1 Hj2.
    destruct (decide (pool s !! j1 ≫= receiving_on = Some c)) as [Ho1|Hn1];
      destruct (decide (pool s !! j2 ≫= receiving_on = Some c)) as [Ho2|Hn2].
    + by apply (Hb j1 j2 c).
    + destruct (T2 j2 c Hj2) as [?|[-> _]]; [done|].
      specialize (Ha j1 _ Ho1). lia.
    + destruct (T2 j1 c Hj1) as [?|[-> _]]; [done|].
      specialize (Ha j2 _ Ho2). lia.
    + by apply (T4 j1 j2 c).
  - intros j c Hj.
    destruct (decide (pool s !! j ≫= receiving_on = Some c)) as [Hold|Hnew];
      [|by apply (T5 j c)].
    destruct (Hc j c Hold) as [i Hi].
    destruct (T6 i c Hi) as [Hkeep|(j0 & Hj0 & Hgone)]; [by exists i|].
    rewrite (Hb j j0 c Hold Hj0) in Hj. congruence.
Qed.

Lemma reachable_overlapping_pool_ok (s : system R) :
  reachable_overlapping s → pool_ok s.
Proof.
  intros (Feeds & seed & acts & r & Hrun & <-).
  assert (Hinit : pool_ok (settled (mk_racing (init Feeds seed) []))).
  { split; intros ? ?; cbn; by rewrite ?lookup_nil. }
  revert Hrun Hinit. generalize (mk_racing (init Feeds seed) []).
  induction acts as [|a rest IH]; intros r0; simpl.
  - by intros [= <-].
  - destruct (exec_fine a r0) as [r1|] eqn:Ha; [|done].
    intros Hrun Hok. apply (IH r1 Hrun).
    apply (pool_ok_transfer (settled r0)); [done|].
    by apply (exec_fine_transfer a).
Qed.

End pool.

Section pool_theorems.
Context {R : Type} `{!RandSource R}.

(** X18: a listen call that waits for a signal can always be resolved.  At
    every reachable state (also with overlapping publishes) the timeout
    goroutine of every waiting listen call is still there, blocked on the
    channel of the call: the call can take its ["TIMEOUT"] and then
    answers 408, ends, and takes its token off the active-connection
    record.  A waiting listen call is never stuck. *)
Theorem waiting_listen_can_time_out (s : system R) (j : nat)
    (token : string) (cur : Z) (c : nat) :
  reachable_overlapping s →
  pool s !! j = Some (ListenAtRecv token cur c) →
  ∃ i s1 s2,
    pool s !! i = Some (TimeoutAtSend c)
    ∧ exec (Sync i j) s = Some s1
    ∧ exec (Run j) s1 = Some s2
    ∧ replies s2 = (replies s ++ [ErrorResponse 408 "Request timeout"])%list
    ∧ pool s2 !! j = Some Exited
    ∧ globalClientToConnection (lp s2) !! token = None.
Proof.
  intros Hreach Hj.
  pose proof (reachable_overlapping_pool_ok s Hreach) as Hok.
  destruct (recv_has_timeout s Hok j c) as [i Hi]; [by rewrite Hj|].
  assert (Hlen : (j < length (<[i := Exited]> (pool s)))%nat).
  { rewrite length_insert. by eapply lookup_lt_Some. }
  exists i. eexists. eexists. split; [exact Hi|]. split.
  { unfold exec. rewrite Hi. cbn [mbind option_bind offered_send].
    rewrite Hj. by rewrite decide_True. }
  split.
  { unfold exec. cbn [pool]. rewrite list_lookup_insert_eq by done.
    unfold ListenHandler_wake. cbn [String.eqb Ascii.eqb Bool.eqb].
    reflexivity. }
  cbn [replies pool lp]. split; [done|]. split.
  - apply list_lookup_insert_eq. by rewrite length_insert.
  - apply lookup_delete_eq.
Qed.

Lemma late_timeout_step (s s' : system R) (i c : nat) :
  pool_ok s →
  pool_transfer (chans s) (pool s) (chans s') (pool s') →
  pool s !! i = Some (TimeoutAtSend c) →
  (∀ j, pool s !! j ≫= receiving_on ≠ Some c) →
  pool s' !! i = Some (TimeoutAtSend c)
  ∧ ∀ j, pool s' !! j ≫= receiving_on ≠ Some c.
Proof.
  intros Hok (Hle & T2 & _ & _ & _ & T6) Hi Hnone. split.
  - destruct (T6 i c Hi) as [Hkeep|(j0 & Hj0 & _)]; [done|].
    by apply Hnone in Hj0.
  - intros j Hj. destruct (T2 j c Hj) as [Hold|[-> _]].
    + by apply Hnone in Hold.
    + pose proof (timeout_allocated s Hok i (chans s)) as Hlt.
      rewrite Hi in Hlt. specialize (Hlt eq_refl). lia.
Qed.

(** X19: a timeout that comes too late is never taken.  Once the listen
    call a timeout goroutine was started for no longer waits (it was
    resolved by ["DONE"] or by ["ABORT"]), no later listen call ever waits
    on that channel, so along every run the goroutine stays blocked on
    its send: its ["TIMEOUT"] reaches no other call, and the goroutine
    never ends. *)
Theorem late_timeout_never_taken (r r' : racing R)
    (acts : list fine_action) (i c : nat) :
  reachable_overlapping (settled r) →
  pool (settled r) !! i = Some (TimeoutAtSend c) →
  (∀ j, pool (settled r) !! j ≫= receiving_on ≠ Some c) →
  run_fine acts r = Some r' →
  pool (settled r') !! i = Some (TimeoutAtSend c)
  ∧ ∀ j, pool (settled r') !! j ≫= receiving_on ≠ Some c.
Proof.
  intros Hreach. pose proof (reachable_overlapping_pool_ok _ Hreach) as Hok.
  clear Hreach. revert r Hok.
  induction acts as [|a rest IH]; intros r Hok Hi Hnone; simpl.
  - by intros [= <-].
  - destruct (exec_fine a r) as [r1|] eqn:Ha; [|done].
    pose proof (exec_fine_transfer a r r1 Ha) as Htr.
    destruct (late_timeout_step _ _ i c Hok Htr Hi Hnone) as [Hi1 Hnone1].
    apply IH; [|done|done]. by apply (pool_ok_transfer (settled r)).
Qed.

End pool_theorems.

Lemma waiting_listen_can_time_out_witness :
  ∃ i s1 s2,
    pool (after [Subscribe (Some ["f1"]); Listen (Some [T0])]) !! i
    = Some (TimeoutAtSend 0)
    ∧ exec (Sync i 0)
        (after [Subscribe (Some ["f1"]); Listen (Some [T0])]) = Some s1
    ∧ exec (Run 0) s1 = Some s2
    ∧ replies s2
      = (replies (after [Subscribe (Some ["f1"]); Listen (Some [T0])])
           ++ [ErrorResponse 408 "Request timeout"])%list
    ∧ pool s2 !! 0%nat = Some Exited
    ∧ globalClientToConnection (lp s2) !! T0 = None.
Proof.
  apply (waiting_listen_can_time_out
           (after [Subscribe (Some ["f1"]); Listen (Some [T0])]) 0 T0 1).
  - apply reachable_overlapping_reachable, reachable_after.
    vm_compute. eexists. reflexivity.
  - vm_compute. reflexivity.
Defined.

(** A listen call woken by the notifier; its timeout is left behind. *)
Lemma late_timeout_never_taken_witness :
  pool
    (after [Subscribe (Some ["f1"]); Listen (Some [T0]);
            Publish "f1" (Some "P1") 100; Run 2; Sync 2 0; Run 0;
            Listen (Some [T0])])
  !! 1%nat = Some (TimeoutAtSend 0).
Proof.
  set (before := [Subscribe (Some ["f1"]); Listen (Some [T0]);
                  Publish "f1" (Some "P1") 100; Run 2; Sync 2 0; Run 0]).
  assert (Hpool : pool (after before)
                  = [Exited; TimeoutAtSend 0; NotifyAfterSend T0])
    by (vm_compute; reflexivity).
  destruct (late_timeout_never_taken
              (mk_racing (after before) [])
              (mk_racing (after (before ++ [Listen (Some [T0])])) [])
              [Step (Listen (Some [T0]))] 1 0) as [Hkeep _].
  - apply reachable_overlapping_reachable, reachable_after.
    vm_compute. eexists. reflexivity.
  - cbn [settled]. by rewrite Hpool.
  - cbn [settled]. rewrite Hpool. by intros [|[|[|j]]].
  - vm_compute. reflexivity.
  - exact Hkeep.
Defined.
